(** * Socket path resolver and connection manager of the Pyre client

    A shallow embedding of [client/commands/v2/server_connection.py]:
    [get_socket_path], [connect] and [connect_in_text_mode], together with
    the parts of the Python runtime they call (UTF-8 codec, MD5, [pathlib],
    the [socket] object and the [io] stack).

    Python [str] values are lists of code points, [bytes] values are lists of
    octets; both are carried by [Z].  Code that can raise returns a [result];
    code that reads or changes the outside world runs in the state-and-error
    monad [M]. *)

From Stdlib Require Import String Ascii.
From Stdlib Require Import ZArith List Bool Lia.
Import ListNotations.
Local Open Scope Z_scope.

Set Implicit Arguments.

(* ================================================================== *)
(** * Values and exceptions *)

(** A Python [str]: a sequence of code points in [0, 0x10FFFF]. *)
Definition str := list Z.

(** A Python [bytes]: a sequence of octets in [0, 255]. *)
Definition bytes := list Z.

(** A string literal of the source, read as the code points of its ASCII
    characters. *)
Fixpoint lit (s : string) : str :=
  match s with
  | EmptyString => []
  | String c s' => Z.of_N (N_of_ascii c) :: lit s'
  end.
Arguments lit s%_string.

Fixpoint str_eqb (a b : str) : bool :=
  match a, b with
  | [], [] => true
  | x :: a', y :: b' => (x =? y) && str_eqb a' b'
  | _, _ => false
  end.

(** The exception classes that the modelled code can raise. *)
Inductive exn : Type :=
| OSError (errno : Z)          (* socket and file system failures *)
| UnicodeEncodeError           (* str.encode on a lone surrogate *)
| UnicodeDecodeError           (* malformed UTF-8 on a text read *)
| RuntimeError                 (* pathlib: symlink loop *)
| RecursionError               (* interpreter recursion limit reached *)
| ValueError                   (* closed file; NUL in a file name *)
| UserError (tag : nat).       (* whatever the caller's body raises *)

Inductive result (A : Type) : Type :=
| Ok (a : A)
| Raise (e : exn).
Arguments Ok {A} a.
Arguments Raise {A} e.

(** The state-and-error monad: a computation reads and updates a world of
    type [S] and either returns or raises. *)
Definition M (S A : Type) : Type := S -> result A * S.

Definition ret {S A} (a : A) : M S A := fun w => (Ok a, w).
Definition raise {S A} (e : exn) : M S A := fun w => (Raise e, w).
Definition bind {S A B} (m : M S A) (k : A -> M S B) : M S B :=
  fun w => match m w with
           | (Ok a, w') => k a w'
           | (Raise e, w') => (Raise e, w')
           end.
Definition gets {S A} (f : S -> A) : M S A := fun w => (Ok (f w), w).
Definition modify {S} (f : S -> S) : M S unit := fun w => (Ok tt, f w).
Definition lift {S A} (r : result A) : M S A := fun w => (r, w).

Declare Scope io_scope.
Delimit Scope io_scope with io.
Notation "x <- m ;; k" := (bind m (fun x => k))
  (at level 61, m at next level, right associativity) : io_scope.
Notation "m ;;; k" := (bind m (fun _ => k))
  (at level 61, right associativity) : io_scope.
Local Open Scope io_scope.

(** [try: body finally: cleanup].  An exception raised by the cleanup
    replaces whatever the body produced, as in Python. *)
Definition try_finally {S A} (body : M S A) (cleanup : M S unit) : M S A :=
  fun w => match body w with
           | (r, w1) =>
               match cleanup w1 with
               | (Ok _, w2) => (r, w2)
               | (Raise e, w2) => (Raise e, w2)
               end
           end.

(** [with enter as x: body], for a context manager whose [__exit__] returns
    a false value: the exit runs on every way out of the body. *)
Definition with_ {S R A} (enter : M S R) (exit : R -> M S unit)
                 (body : R -> M S A) : M S A :=
  x <- enter ;; try_finally (body x) (exit x).

(* ================================================================== *)
(** * UTF-8, as [str.encode("utf-8")] *)

Definition is_surrogate (c : Z) : bool := (0xD800 <=? c) && (c <=? 0xDFFF).

(** The octets of one code point; [None] where the strict codec refuses
    (surrogates, and values that are not code points). *)
Definition encode_codepoint (c : Z) : option bytes :=
  if c <? 0 then None
  else if c <? 0x80 then Some [c]
  else if c <? 0x800 then
    Some [Z.lor 0xC0 (Z.shiftr c 6); Z.lor 0x80 (Z.land c 0x3F)]
  else if c <? 0x10000 then
    if is_surrogate c then None
    else Some [Z.lor 0xE0 (Z.shiftr c 12);
               Z.lor 0x80 (Z.land (Z.shiftr c 6) 0x3F);
               Z.lor 0x80 (Z.land c 0x3F)]
  else if c <? 0x110000 then
    Some [Z.lor 0xF0 (Z.shiftr c 18);
          Z.lor 0x80 (Z.land (Z.shiftr c 12) 0x3F);
          Z.lor 0x80 (Z.land (Z.shiftr c 6) 0x3F);
          Z.lor 0x80 (Z.land c 0x3F)]
  else None.

Fixpoint encode_utf8 (s : str) : result bytes :=
  match s with
  | [] => Ok []
  | c :: s' =>
      match encode_codepoint c with
      | None => Raise UnicodeEncodeError
      | Some b =>
          match encode_utf8 s' with
          | Ok bs => Ok (b ++ bs)
          | Raise e => Raise e
          end
      end
  end.

(* ================================================================== *)
(** * MD5, as [hashlib.md5(data).hexdigest()] (RFC 1321) *)

Module MD5.

Definition mask32 : Z := 0xFFFFFFFF.
Definition add32 (a b : Z) : Z := (a + b) mod 2 ^ 32.
Definition not32 (a : Z) : Z := Z.lxor a mask32.
Definition rotl32 (x n : Z) : Z :=
  Z.land (Z.lor (Z.shiftl x n) (Z.shiftr x (32 - n))) mask32.

Definition F (b c d : Z) : Z := Z.lor (Z.land b c) (Z.land (not32 b) d).
Definition G (b c d : Z) : Z := Z.lor (Z.land b d) (Z.land c (not32 d)).
Definition H (b c d : Z) : Z := Z.lxor (Z.lxor b c) d.
Definition I (b c d : Z) : Z := Z.lxor c (Z.lor b (not32 d)).

(** [K i = floor (2^32 * abs (sin (i + 1)))]. *)
Definition K : list Z :=
  [ 0xd76aa478; 0xe8c7b756; 0x242070db; 0xc1bdceee;
    0xf57c0faf; 0x4787c62a; 0xa8304613; 0xfd469501;
    0x698098d8; 0x8b44f7af; 0xffff5bb1; 0x895cd7be;
    0x6b901122; 0xfd987193; 0xa679438e; 0x49b40821;
    0xf61e2562; 0xc040b340; 0x265e5a51; 0xe9b6c7aa;
    0xd62f105d; 0x02441453; 0xd8a1e681; 0xe7d3fbc8;
    0x21e1cde6; 0xc33707d6; 0xf4d50d87; 0x455a14ed;
    0xa9e3e905; 0xfcefa3f8; 0x676f02d9; 0x8d2a4c8a;
    0xfffa3942; 0x8771f681; 0x6d9d6122; 0xfde5380c;
    0xa4beea44; 0x4bdecfa9; 0xf6bb4b60; 0xbebfbc70;
    0x289b7ec6; 0xeaa127fa; 0xd4ef3085; 0x04881d05;
    0xd9d4d039; 0xe6db99e5; 0x1fa27cf8; 0xc4ac5665;
    0xf4292244; 0x432aff97; 0xab9423a7; 0xfc93a039;
    0x655b59c3; 0x8f0ccc92; 0xffeff47d; 0x85845dd1;
    0x6fa87e4f; 0xfe2ce6e0; 0xa3014314; 0x4e0811a1;
    0xf7537e82; 0xbd3af235; 0x2ad7d2bb; 0xeb86d391 ].

(** Per-round left-rotation amounts. *)
Definition shifts : list Z :=
  [ 7; 12; 17; 22; 7; 12; 17; 22; 7; 12; 17; 22; 7; 12; 17; 22;
    5;  9; 14; 20; 5;  9; 14; 20; 5;  9; 14; 20; 5;  9; 14; 20;
    4; 11; 16; 23; 4; 11; 16; 23; 4; 11; 16; 23; 4; 11; 16; 23;
    6; 10; 15; 21; 6; 10; 15; 21; 6; 10; 15; 21; 6; 10; 15; 21 ].

Record state : Type := mkState { sA : Z; sB : Z; sC : Z; sD : Z }.

Definition init : state :=
  mkState 0x67452301 0xefcdab89 0x98badcfe 0x10325476.

(** A 32-bit word from four octets, least significant first. *)
Definition word_le (b : bytes) : Z :=
  nth 0 b 0 + 256 * (nth 1 b 0 + 256 * (nth 2 b 0 + 256 * nth 3 b 0)).

(** The four octets of a 32-bit word, least significant first. *)
Definition bytes_le (x : Z) : bytes :=
  [ x mod 256; (x / 256) mod 256; (x / 65536) mod 256; (x / 16777216) mod 256 ].

Definition message_word (block : bytes) (g : nat) : Z :=
  word_le (firstn 4 (skipn (4 * g) block)).

Definition round (block : bytes) (st : state) (i : nat) : state :=
  let '(mkState a b c d) := st in
  let '(f, g) :=
    if (i <? 16)%nat then (F b c d, i)
    else if (i <? 32)%nat then (G b c d, ((5 * i + 1) mod 16)%nat)
    else if (i <? 48)%nat then (H b c d, ((3 * i + 5) mod 16)%nat)
    else (I b c d, ((7 * i) mod 16)%nat) in
  let f' := add32 (add32 (add32 f a) (nth i K 0)) (message_word block g) in
  mkState d (add32 b (rotl32 f' (nth i shifts 0))) b c.

Definition compress (st : state) (block : bytes) : state :=
  let '(mkState a b c d) := fold_left (round block) (seq 0 64) st in
  mkState (add32 (sA st) a) (add32 (sB st) b)
          (add32 (sC st) c) (add32 (sD st) d).

(** Padding: a one bit, zeros up to 56 modulo 64, then the bit length as a
    64-bit little-endian integer. *)
Definition pad (msg : bytes) : bytes :=
  let n := Z.of_nat (length msg) in
  let bits := (8 * n) mod 2 ^ 64 in
  msg ++ [0x80] ++ repeat 0 (Z.to_nat ((55 - n) mod 64))
      ++ bytes_le (bits mod 2 ^ 32) ++ bytes_le (bits / 2 ^ 32).

Fixpoint blocks (n : nat) (data : bytes) : list bytes :=
  match n with
  | O => []
  | S n' => firstn 64 data :: blocks n' (skipn 64 data)
  end.

Definition digest (msg : bytes) : bytes :=
  let padded := pad msg in
  let '(mkState a b c d) :=
    fold_left compress (blocks (length padded / 64) padded) init in
  bytes_le a ++ bytes_le b ++ bytes_le c ++ bytes_le d.

Definition hexchar (n : Z) : Z :=
  nth (Z.to_nat n) (lit "0123456789abcdef") 0.

Fixpoint hex (b : bytes) : str :=
  match b with
  | [] => []
  | x :: b' => hexchar (x / 16) :: hexchar (x mod 16) :: hex b'
  end.

Definition hexdigest (msg : bytes) : str := hex (digest msg).

End MD5.


(* ================================================================== *)
(** * Paths, as [pathlib.PurePosixPath] *)

Definition sep : Z := 47.      (* "/" *)

(** A parsed path: [p_root] is [""], ["/"] or ["//"], and [p_parts] are the
    components after it. *)
Record Path : Type := mkPath { p_root : str; p_parts : list str }.

(** [s.split("/")]. *)
Fixpoint split_sep (s : str) : list str :=
  match s with
  | [] => [[]]
  | c :: s' =>
      if c =? sep then [] :: split_sep s'
      else match split_sep s' with
           | [] => [[c]]
           | x :: xs => (c :: x) :: xs
           end
  end.

(** ["/".join(parts)]. *)
Fixpoint join_sep (parts : list str) : str :=
  match parts with
  | [] => []
  | [x] => x
  | x :: rest => x ++ sep :: join_sep rest
  end.

Fixpoint lstrip_sep (s : str) : str :=
  match s with
  | c :: s' => if c =? sep then lstrip_sep s' else s
  | [] => []
  end.

(** POSIX [splitroot]: exactly two leading slashes are kept as they are, any
    other number of them is one slash. *)
Definition splitroot (part : str) : str * str :=
  match part with
  | c :: _ =>
      if c =? sep then
        let stripped := lstrip_sep part in
        if (length part - length stripped =? 2)%nat
        then ([sep; sep], stripped)
        else ([sep], stripped)
      else ([], part)
  | [] => ([], part)
  end.

Definition is_component (x : str) : bool :=
  negb (str_eqb x []) && negb (str_eqb x (lit ".")).

(** [parse_parts] on one argument: empty and ["."] components are dropped. *)
Definition parse_parts (part : str) : Path :=
  let '(root, rel) := splitroot part in
  mkPath root (filter is_component (split_sep rel)).

(** [self / key]: a rooted key replaces the path, any other is appended. *)
Definition truediv (self : Path) (key : str) : Path :=
  let q := parse_parts key in
  match p_root q with
  | [] => mkPath (p_root self) (p_parts self ++ p_parts q)
  | _ :: _ => q
  end.

(** [str(path)]. *)
Definition str_of_path (p : Path) : str :=
  match p_root p, p_parts p with
  | [], [] => lit "."
  | root, parts => root ++ join_sep parts
  end.

(** [path.name]: the last component, [""] when there is none. *)
Definition name (p : Path) : str := last (p_parts p) [].

Definition is_absolute (p : Path) : bool :=
  match p_root p with [] => false | _ :: _ => true end.

(* ================================================================== *)
(** * The file system, as [Path.resolve] sees it *)

(** What [os.readlink] answers on a path. *)
Inductive readlink_result : Type :=
| Target (target : str)     (* a symbolic link, with its contents *)
| NotALink                  (* EINVAL: the path exists and is no link *)
| Failed (errno : Z).       (* any other error, ENOENT for a missing path *)

Definition ENOENT : Z := 2.

(** What [os.getcwd] answers. *)
Inductive getcwd_result : Type :=
| Cwd (parts : list str)    (* the components of the working directory *)
| NoCwd (errno : Z).        (* an error: ENOENT once it has been removed *)

(** The part of the host that the resolver reads: the working directory,
    the symbolic links (keyed by the components of the absolute path asked
    about) and the interpreter's remaining stack depth. *)
Record Host : Type := mkHost {
  host_cwd : getcwd_result;
  host_readlink : list str -> readlink_result;
  host_stack : nat
}.

(** [os.getcwd()]. *)
Definition os_getcwd : M Host (list str) :=
  r <- gets host_cwd ;;
  match r with
  | Cwd parts => ret parts
  | NoCwd e => raise (OSError e)
  end.

(** A code point that the file-system encoding can turn into octets.  The
    encoding is the default of the POSIX platforms, UTF-8 with the
    [surrogateescape] handler: what UTF-8 encodes, and the surrogates
    U+DC80 to U+DCFF that stand for the undecodable octets of a name. *)
Definition fs_encodable (c : Z) : bool :=
  match encode_codepoint c with
  | Some _ => true
  | None => (0xDC80 <=? c) && (c <=? 0xDCFF)
  end.

(** [os.readlink(path)].  The path is converted to octets before the file
    system is asked: that raises UnicodeEncodeError on a character that
    cannot be encoded and, after it, ValueError on an embedded NUL. *)
Definition os_readlink (path : list str) : M Host readlink_result :=
  if negb (forallb (forallb fs_encodable) path) then raise UnicodeEncodeError
  else if existsb (existsb (Z.eqb 0)) path then raise ValueError
  else gets (fun h => host_readlink h path).

Fixpoint path_eqb (a b : list str) : bool :=
  match a, b with
  | [], [] => true
  | x :: a', y :: b' => str_eqb x y && path_eqb a' b'
  | _, _ => false
  end.

(** The resolver's [seen] dictionary: a link being resolved maps to [None],
    a resolved one to its target. *)
Definition seen_t : Type := list (list str * option (list str)).

Fixpoint seen_get (seen : seen_t) (k : list str) : option (option (list str)) :=
  match seen with
  | [] => None
  | (k', v) :: rest => if path_eqb k k' then Some v else seen_get rest k
  end.

Definition seen_set (seen : seen_t) (k : list str) (v : option (list str))
  : seen_t := (k, v) :: seen.

Definition startswith_sep (s : str) : bool :=
  match s with c :: _ => c =? sep | [] => false end.

(** pathlib's resolution loop over the names of one text.  [path] is the
    resolved prefix (the components of an absolute path) and [again] resolves
    the contents of a link.  A link met again while it is being resolved is
    a loop; errors of [readlink] other than EINVAL are raised in strict mode
    only, otherwise the name is kept as it is. *)
Fixpoint walk (again : seen_t -> list str -> str -> M Host (list str * seen_t))
              (strict : bool) (names : list str) (path : list str)
              (seen : seen_t) {struct names} : M Host (list str * seen_t) :=
  match names with
  | [] => ret (path, seen)
  | name :: names' =>
      if negb (is_component name) then walk again strict names' path seen
      else if str_eqb name (lit "..")
      then walk again strict names' (removelast path) seen
      else
        let newpath := path ++ [name] in
        match seen_get seen newpath with
        | Some (Some cached) => walk again strict names' cached seen
        | Some None => raise RuntimeError
        | None =>
            r <- os_readlink newpath ;;
            match r with
            | Target target =>
                ps <- again (seen_set seen newpath None) path target ;;
                walk again strict names' (fst ps)
                     (seen_set (snd ps) newpath (Some (fst ps)))
            | NotALink => walk again strict names' newpath seen
            | Failed e =>
                if strict then raise (OSError e)
                else walk again strict names' newpath seen
            end
        end
  end.

(** [_resolve(path, rest)]: a rooted text starts over from the root.  Each
    link opens one more frame; [depth] is how many the interpreter allows. *)
Fixpoint _resolve (depth : nat) (strict : bool) (seen : seen_t)
                  (path : list str) (rest : str)
  : M Host (list str * seen_t) :=
  match depth with
  | O => raise RecursionError
  | S depth' =>
      walk (_resolve depth' strict) strict (split_sep rest)
           (if startswith_sep rest then [] else path) seen
  end.

(** [path.resolve(strict)]: an absolute path with no link, ["."] or [".."]
    left in it. *)
Definition resolve (strict : bool) (self : Path) : M Host Path :=
  base <- (if is_absolute self then ret [] else os_getcwd) ;;
  depth <- gets host_stack ;;
  ps <- _resolve depth strict [] base (str_of_path self) ;;
  ret (mkPath [sep] (fst ps)).

(* ================================================================== *)
(** * [get_socket_path] *)

Definition get_socket_path (root log_directory : Path) : M Host Path :=
  resolved <- resolve false log_directory ;;
  encoded <- lift (encode_utf8 (str_of_path resolved)) ;;
  let log_path_digest := MD5.hexdigest encoded in
  ret (truediv root (lit "pyre_server_" ++ log_path_digest ++ lit ".sock")).

(** The text that [get_socket_path] hashes: the string form of the
    non-strictly resolved path. *)
Definition canonical_str (p : Path) : M Host str :=
  resolved <- resolve false p ;; ret (str_of_path resolved).

(** A host with no symbolic link at all, every path an existing directory. *)
Definition plain_host (cwd : list str) : Host :=
  mkHost (Cwd cwd) (fun _ => NotALink) 100.

(* ================================================================== *)
(** * UTF-8, as the incremental decoder of [codecs] *)

Definition is_cont (b : Z) : bool := (0x80 <=? b) && (b <=? 0xBF).

(** The second octet of a three-octet character: no overlong form after
    [E0], no surrogate after [ED]. *)
Definition second_of_3 (b0 b1 : Z) : bool :=
  if b0 =? 0xE0 then (0xA0 <=? b1) && (b1 <=? 0xBF)
  else if b0 =? 0xED then (0x80 <=? b1) && (b1 <=? 0x9F)
  else is_cont b1.

(** The same test when the third octet has not arrived yet: the decoder
    then lets a surrogate's second octet wait. *)
Definition second_of_3_short (b0 b1 : Z) : bool :=
  is_cont b1 && negb ((b0 =? 0xE0) && (b1 <? 0xA0)).

(** The second octet of a four-octet character: no overlong form after
    [F0], nothing above U+10FFFF after [F4]. *)
Definition second_of_4 (b0 b1 : Z) : bool :=
  if b0 =? 0xF0 then (0x90 <=? b1) && (b1 <=? 0xBF)
  else if b0 =? 0xF4 then (0x80 <=? b1) && (b1 <=? 0x8F)
  else is_cont b1.

Definition low6 (b : Z) : Z := Z.land b 0x3F.
Definition cp2 (b0 b1 : Z) : Z := Z.lor (Z.shiftl (Z.land b0 0x1F) 6) (low6 b1).
Definition cp3 (b0 b1 b2 : Z) : Z :=
  Z.lor (Z.shiftl (Z.land b0 0x0F) 12) (Z.lor (Z.shiftl (low6 b1) 6) (low6 b2)).
Definition cp4 (b0 b1 b2 b3 : Z) : Z :=
  Z.lor (Z.shiftl (Z.land b0 0x07) 18)
        (Z.lor (Z.shiftl (low6 b1) 12) (Z.lor (Z.shiftl (low6 b2) 6) (low6 b3))).

Definition emit (c : Z) (r : option (str * bytes)) : option (str * bytes) :=
  match r with
  | Some (s, rest) => Some (c :: s, rest)
  | None => None
  end.

(** [utf_8_decode(data, "strict", final)]: the text of the longest prefix
    that is whole characters, and the octets of an unfinished last one;
    [None] is UnicodeDecodeError.  When [final], an unfinished character is
    an error. *)
Fixpoint utf8_decode (data : bytes) (final : bool) {struct data}
  : option (str * bytes) :=
  match data with
  | [] => Some ([], [])
  | b0 :: r0 =>
      let short := if final then None else Some ([], data) in
      if (0 <=? b0) && (b0 <? 0x80) then emit b0 (utf8_decode r0 final)
      else if b0 <? 0xC2 then None
      else if b0 <? 0xE0 then
        match r0 with
        | [] => short
        | b1 :: r1 =>
            if is_cont b1 then emit (cp2 b0 b1) (utf8_decode r1 final)
            else None
        end
      else if b0 <? 0xF0 then
        match r0 with
        | [] => short
        | b1 :: r1 =>
            match r1 with
            | [] => if second_of_3_short b0 b1 then short else None
            | b2 :: r2 =>
                if second_of_3 b0 b1 && is_cont b2
                then emit (cp3 b0 b1 b2) (utf8_decode r2 final)
                else None
            end
        end
      else if b0 <? 0xF5 then
        match r0 with
        | [] => short
        | b1 :: r1 =>
            if second_of_4 b0 b1 then
              match r1 with
              | [] => short
              | b2 :: r2 =>
                  if is_cont b2 then
                    match r2 with
                    | [] => short
                    | b3 :: r3 =>
                        if is_cont b3
                        then emit (cp4 b0 b1 b2 b3) (utf8_decode r3 final)
                        else None
                    end
                  else None
              end
            else None
        end
      else None
  end.

(** Universal newlines: ["\r\n"] and ["\r"] become ["\n"]. *)
Fixpoint translate_newlines (s : str) : str :=
  match s with
  | [] => []
  | c :: s' =>
      if c =? 13 then
        10 :: match s' with
              | d :: s'' =>
                  if d =? 10 then translate_newlines s''
                  else translate_newlines s'
              | [] => []
              end
      else c :: translate_newlines s'
  end.

Definition ends_with_cr (s : str) : bool :=
  match rev s with c :: _ => c =? 13 | [] => false end.

(** [IncrementalNewlineDecoder.decode], translating: a carriage return at
    the end of a chunk waits for the next chunk, which may start with the
    line feed that belongs to it. *)
Definition newline_decode (pendingcr : bool) (output : str) (final : bool)
  : str * bool :=
  let '(output, pendingcr) :=
    if pendingcr && (negb (str_eqb output []) || final)
    then (13 :: output, false) else (output, pendingcr) in
  let '(output, pendingcr) :=
    if ends_with_cr output && negb final
    then (removelast output, true) else (output, pendingcr) in
  (translate_newlines output, pendingcr).

(* ================================================================== *)
(** * The kernel side of one Unix stream socket *)

Inductive life : Type := Absent | Open | Closed.

(** A system call and the error it returned, if any. *)
Inductive syscall : Type :=
| SysSocket (err : option Z)
| SysConnect (address : str) (err : option Z)
| SysSend (data : bytes) (err : option Z)
| SysRecv (size : nat) (err : option Z)
| SysClose (err : option Z).

(** What the kernel will answer: the errno of [socket], of [connect], of
    the i-th [send], of the i-th [recv] and of [close]; [None] is success. *)
Record Oracle : Type := mkOracle {
  socket_errno : option Z;
  connect_errno : option Z;
  send_errno : nat -> option Z;
  recv_errno : nat -> option Z;
  close_errno : option Z
}.

Definition EBADF : Z := 9.
Definition ECONNRESET : Z := 104.

(** [io.DEFAULT_BUFFER_SIZE], and the chunk size of [TextIOWrapper]. *)
Definition DEFAULT_BUFFER_SIZE : Z := 8192.
Definition CHUNK_SIZE : Z := 8192.

Definition len (b : list Z) : Z := Z.of_nat (length b).

Record Conn : Type := mkConn {
  oracle : Oracle;            (* what the kernel will answer *)
  inbox : list bytes;         (* segments from the peer, not yet received *)
  syscalls : list syscall;    (* the system calls so far, oldest first *)
  fd : life;                  (* the socket's file descriptor *)
  sock_closed : bool;         (* socket._closed *)
  sock_io_refs : nat;         (* socket._io_refs *)
  in_raw : life;              (* the SocketIO under the input stream *)
  out_raw : life;             (* the SocketIO under the output stream *)
  write_buf : bytes;          (* BufferedWriter: not yet sent *)
  pending_bytes : bytes;      (* output wrapper: not yet written *)
  dec_buffer : bytes;         (* input wrapper: an unfinished character *)
  dec_pendingcr : bool;       (* input wrapper: a held-back CR *)
  decoded_chars : str         (* input wrapper: decoded, not yet read *)
}.

Definition set_inbox (v : list bytes) (w : Conn) : Conn :=
  mkConn (oracle w) v (syscalls w) (fd w) (sock_closed w) (sock_io_refs w)
        (in_raw w) (out_raw w) (write_buf w) (pending_bytes w)
        (dec_buffer w) (dec_pendingcr w) (decoded_chars w).

Definition set_syscalls (v : list syscall) (w : Conn) : Conn :=
  mkConn (oracle w) (inbox w) v (fd w) (sock_closed w) (sock_io_refs w)
        (in_raw w) (out_raw w) (write_buf w) (pending_bytes w)
        (dec_buffer w) (dec_pendingcr w) (decoded_chars w).

Definition set_fd (v : life) (w : Conn) : Conn :=
  mkConn (oracle w) (inbox w) (syscalls w) v (sock_closed w)
        (sock_io_refs w) (in_raw w) (out_raw w) (write_buf w)
        (pending_bytes w) (dec_buffer w) (dec_pendingcr w) (decoded_chars w).

Definition set_sock_closed (v : bool) (w : Conn) : Conn :=
  mkConn (oracle w) (inbox w) (syscalls w) (fd w) v (sock_io_refs w)
        (in_raw w) (out_raw w) (write_buf w) (pending_bytes w)
        (dec_buffer w) (dec_pendingcr w) (decoded_chars w).

Definition set_sock_io_refs (v : nat) (w : Conn) : Conn :=
  mkConn (oracle w) (inbox w) (syscalls w) (fd w) (sock_closed w) v
        (in_raw w) (out_raw w) (write_buf w) (pending_bytes w)
        (dec_buffer w) (dec_pendingcr w) (decoded_chars w).

Definition set_in_raw (v : life) (w : Conn) : Conn :=
  mkConn (oracle w) (inbox w) (syscalls w) (fd w) (sock_closed w)
        (sock_io_refs w) v (out_raw w) (write_buf w) (pending_bytes w)
        (dec_buffer w) (dec_pendingcr w) (decoded_chars w).

Definition set_out_raw (v : life) (w : Conn) : Conn :=
  mkConn (oracle w) (inbox w) (syscalls w) (fd w) (sock_closed w)
        (sock_io_refs w) (in_raw w) v (write_buf w) (pending_bytes w)
        (dec_buffer w) (dec_pendingcr w) (decoded_chars w).

Definition set_write_buf (v : bytes) (w : Conn) : Conn :=
  mkConn (oracle w) (inbox w) (syscalls w) (fd w) (sock_closed w)
        (sock_io_refs w) (in_raw w) (out_raw w) v (pending_bytes w)
        (dec_buffer w) (dec_pendingcr w) (decoded_chars w).

Definition set_pending_bytes (v : bytes) (w : Conn) : Conn :=
  mkConn (oracle w) (inbox w) (syscalls w) (fd w) (sock_closed w)
        (sock_io_refs w) (in_raw w) (out_raw w) (write_buf w) v
        (dec_buffer w) (dec_pendingcr w) (decoded_chars w).

Definition set_dec_buffer (v : bytes) (w : Conn) : Conn :=
  mkConn (oracle w) (inbox w) (syscalls w) (fd w) (sock_closed w)
        (sock_io_refs w) (in_raw w) (out_raw w) (write_buf w)
        (pending_bytes w) v (dec_pendingcr w) (decoded_chars w).

Definition set_dec_pendingcr (v : bool) (w : Conn) : Conn :=
  mkConn (oracle w) (inbox w) (syscalls w) (fd w) (sock_closed w)
        (sock_io_refs w) (in_raw w) (out_raw w) (write_buf w)
        (pending_bytes w) (dec_buffer w) v (decoded_chars w).

Definition set_decoded_chars (v : str) (w : Conn) : Conn :=
  mkConn (oracle w) (inbox w) (syscalls w) (fd w) (sock_closed w)
        (sock_io_refs w) (in_raw w) (out_raw w) (write_buf w)
        (pending_bytes w) (dec_buffer w) (dec_pendingcr w) v.
Definition is_send (c : syscall) : bool :=
  match c with SysSend _ _ => true | _ => false end.
Definition is_recv (c : syscall) : bool :=
  match c with SysRecv _ _ => true | _ => false end.
Definition is_connect (c : syscall) : bool :=
  match c with SysConnect _ _ => true | _ => false end.

Definition count (p : syscall -> bool) (log : list syscall) : nat :=
  length (filter p log).

(** The octets that reached the peer: the payloads of the sends that
    succeeded, in order. *)
Fixpoint wire_of (log : list syscall) : bytes :=
  match log with
  | [] => []
  | SysSend data None :: rest => data ++ wire_of rest
  | _ :: rest => wire_of rest
  end.
Definition wire (w : Conn) : bytes := wire_of (syscalls w).

Definition log (c : syscall) : M Conn unit :=
  modify (fun w => set_syscalls (syscalls w ++ [c]) w).

(** A connection that does not exist yet. *)
Definition fresh (o : Oracle) (peer : list bytes) : Conn :=
  mkConn o peer [] Absent false 0 Absent Absent [] [] [] false [].

Definition sys_socket : M Conn unit :=
  o <- gets oracle ;;
  match socket_errno o with
  | Some e => log (SysSocket (Some e)) ;;; raise (OSError e)
  | None => log (SysSocket None) ;;; modify (set_fd Open)
  end.

Definition sys_connect (address : str) : M Conn unit :=
  st <- gets fd ;;
  match st with
  | Open =>
      o <- gets oracle ;;
      log (SysConnect address (connect_errno o)) ;;;
      match connect_errno o with
      | Some e => raise (OSError e)
      | None => ret tt
      end
  | _ => raise (OSError EBADF)
  end.

(** [send]: the whole payload goes out, or the call fails. *)
Definition sys_send (data : bytes) : M Conn nat :=
  st <- gets fd ;;
  match st with
  | Open =>
      o <- gets oracle ;;
      i <- gets (fun w => count is_send (syscalls w)) ;;
      log (SysSend data (send_errno o i)) ;;;
      match send_errno o i with
      | Some e => raise (OSError e)
      | None => ret (length data)
      end
  | _ => raise (OSError EBADF)
  end.

(** The next octets of the peer, at most [size] of them; none at all at
    the end of the stream. *)
Fixpoint take_bytes (size : nat) (segments : list bytes) : bytes * list bytes :=
  match segments with
  | [] => ([], [])
  | [] :: rest => take_bytes size rest
  | seg :: rest =>
      if (length seg <=? size)%nat then (seg, rest)
      else (firstn size seg, skipn size seg :: rest)
  end.

Definition sys_recv (size : nat) : M Conn bytes :=
  st <- gets fd ;;
  match st with
  | Open =>
      o <- gets oracle ;;
      i <- gets (fun w => count is_recv (syscalls w)) ;;
      log (SysRecv size (recv_errno o i)) ;;;
      match recv_errno o i with
      | Some e => raise (OSError e)
      | None =>
          segs <- gets inbox ;;
          modify (set_inbox (snd (take_bytes size segs))) ;;;
          ret (fst (take_bytes size segs))
      end
  | _ => raise (OSError EBADF)
  end.

(** [close]: the descriptor is gone whatever the call returns; ECONNRESET
    is not reported. *)
Definition sys_close : M Conn unit :=
  o <- gets oracle ;;
  log (SysClose (close_errno o)) ;;;
  modify (set_fd Closed) ;;;
  match close_errno o with
  | Some e => if e =? ECONNRESET then ret tt else raise (OSError e)
  | None => ret tt
  end.

(* ================================================================== *)
(** * The [socket] object and its raw streams ([socket.py]) *)

Inductive socket : Type := ClientSocket.

(** The two streams that [makefile] hands out. *)
Inductive stream : Type := Input | Output.

Definition AF_UNIX : Z := 1.
Definition SOCK_STREAM : Z := 1.

Definition raw_of (s : stream) (w : Conn) : life :=
  match s with Input => in_raw w | Output => out_raw w end.

Definition set_raw (s : stream) (v : life) (w : Conn) : Conn :=
  match s with Input => set_in_raw v w | Output => set_out_raw v w end.

(** [socket.socket(family, type)]. *)
Definition socket_socket (family type : Z) : M Conn socket :=
  sys_socket ;;;
  modify (set_sock_closed false) ;;;
  modify (set_sock_io_refs 0) ;;;
  ret ClientSocket.

Definition socket_connect (self : socket) (address : str) : M Conn unit :=
  sys_connect address.

(** [socket._real_close]: closes the descriptor if there still is one. *)
Definition socket__real_close (self : socket) : M Conn unit :=
  st <- gets fd ;;
  match st with
  | Open => sys_close
  | _ => ret tt
  end.

(** [socket.close]: the descriptor is closed once no stream made from the
    socket is left open. *)
Definition socket_close (self : socket) : M Conn unit :=
  modify (set_sock_closed true) ;;;
  refs <- gets sock_io_refs ;;
  if (refs <=? 0)%nat then socket__real_close self else ret tt.

Definition socket__decref_socketios (self : socket) : M Conn unit :=
  refs <- gets sock_io_refs ;;
  (if (0 <? refs)%nat then modify (set_sock_io_refs (refs - 1)) else ret tt) ;;;
  closed <- gets sock_closed ;;
  if closed then socket_close self else ret tt.

(** [socket.__exit__]. *)
Definition socket_exit (self : socket) : M Conn unit :=
  closed <- gets sock_closed ;;
  if closed then ret tt else socket_close self.

(** [socket.makefile(mode)] for the two modes the client uses: a new raw
    stream, counted in [_io_refs], under a buffered reader or writer. *)
Definition socket_makefile (self : socket) (mode : str) : M Conn stream :=
  if str_eqb mode (lit "rb") then
    modify (set_in_raw Open) ;;;
    refs <- gets sock_io_refs ;;
    modify (set_sock_io_refs (refs + 1)) ;;;
    ret Input
  else if str_eqb mode (lit "wb") then
    modify (set_out_raw Open) ;;;
    refs <- gets sock_io_refs ;;
    modify (set_sock_io_refs (refs + 1)) ;;;
    modify (set_write_buf []) ;;;
    ret Output
  else raise ValueError.

(** [SocketIO.close]: the first close gives the reference back. *)
Definition SocketIO_close (s : stream) : M Conn unit :=
  st <- gets (raw_of s) ;;
  match st with
  | Open =>
      modify (set_raw s Closed) ;;;
      socket__decref_socketios ClientSocket
  | _ => ret tt
  end.

Definition check_open (s : stream) : M Conn unit :=
  st <- gets (raw_of s) ;;
  match st with
  | Open => ret tt
  | _ => raise ValueError
  end.

(** [SocketIO.write] and [SocketIO.read]. *)
Definition SocketIO_write (s : stream) (data : bytes) : M Conn nat :=
  check_open s ;;; sys_send data.

Definition SocketIO_read (s : stream) (size : nat) : M Conn bytes :=
  check_open s ;;; sys_recv size.

(* ================================================================== *)
(** * The buffered streams ([io.BufferedReader], [io.BufferedWriter]) *)

(** Sends what the writer holds; the buffer is kept if the send fails. *)
Definition _flush_unlocked : M Conn unit :=
  buf <- gets write_buf ;;
  match buf with
  | [] => ret tt
  | _ :: _ =>
      SocketIO_write Output buf ;;;
      modify (set_write_buf [])
  end.

(** [flush()]: nothing to do on a reader. *)
Definition buffered_flush (s : stream) : M Conn unit :=
  check_open s ;;;
  match s with
  | Output => _flush_unlocked
  | Input => ret tt
  end.

(** [close()]: flush, then close the raw stream whether or not the flush
    went through; closing twice is allowed. *)
Definition buffered_close (s : stream) : M Conn unit :=
  st <- gets (raw_of s) ;;
  match st with
  | Open => try_finally (buffered_flush s) (SocketIO_close s)
  | _ => ret tt
  end.

(** [IOBase.__enter__] and [IOBase.__exit__]. *)
Definition IOBase_enter (s : stream) : M Conn stream :=
  check_open s ;;; ret s.
Definition IOBase_exit (s : stream) : M Conn unit := buffered_close s.

(** [BufferedWriter.write]: data that fits is kept; otherwise what is held
    goes out first, and data larger than the buffer goes out at once. *)
Definition BufferedWriter_write (data : bytes) : M Conn nat :=
  check_open Output ;;;
  buf <- gets write_buf ;;
  if len data <=? DEFAULT_BUFFER_SIZE - len buf then
    modify (set_write_buf (buf ++ data)) ;;; ret (length data)
  else
    _flush_unlocked ;;;
    (if DEFAULT_BUFFER_SIZE <? len data
     then SocketIO_write Output data ;;; ret tt
     else modify (set_write_buf data)) ;;;
    ret (length data).

(** [BufferedReader.read1(size)]: at most one [recv]. *)
Definition BufferedReader_read1 (size : nat) : M Conn bytes :=
  check_open Input ;;;
  match size with
  | O => ret []
  | S _ => SocketIO_read Input size
  end.

(* ================================================================== *)
(** * [connect] *)

Definition BinaryIO : Type := stream.

(** The generator of the source with the caller's block in the place of
    [yield]: what [with connect(path) as streams: body(streams)] runs. *)
Definition connect {T} (socket_path : Path)
    (body : BinaryIO * BinaryIO -> M Conn T) : M Conn T :=
  with_ (socket_socket AF_UNIX SOCK_STREAM) socket_exit
    (fun client_socket =>
       socket_connect client_socket (str_of_path socket_path) ;;;
       with_ (s <- socket_makefile client_socket (lit "rb") ;; IOBase_enter s)
             IOBase_exit
         (fun input_channel =>
            with_ (s <- socket_makefile client_socket (lit "wb") ;;
                   IOBase_enter s)
                  IOBase_exit
              (fun output_channel =>
                 body (input_channel, output_channel)))).

(* ================================================================== *)
(** * The text streams ([io.TextIOWrapper]) *)

Record TextIOWrapper : Type := mkText {
  buffer : stream;
  encoding : str;
  line_buffering : bool
}.

Definition TextIO : Type := TextIOWrapper.

(** [io.TextIOWrapper(buffer, encoding=..., line_buffering=...)].  The
    state of a wrapper lives in the connection, one wrapper per stream. *)
Definition TextIOWrapper_new (buffer : BinaryIO) (encoding : str)
    (line_buffering : bool) : M Conn TextIOWrapper :=
  check_open buffer ;;;
  ret (mkText buffer encoding line_buffering).

(** The codec of a wrapper; only UTF-8 is modelled. *)
Definition codec_encode (encoding : str) (s : str) : result bytes :=
  if str_eqb encoding (lit "utf-8") then encode_utf8 s else Raise ValueError.

Definition codec_decode (encoding : str) (data : bytes) (final : bool)
  : option (str * bytes) :=
  if str_eqb encoding (lit "utf-8") then utf8_decode data final else None.

Definition has_char (c : Z) (s : str) : bool := existsb (Z.eqb c) s.

(** Hands the pending bytes of the wrapper to the buffered writer. *)
Definition _writeflush : M Conn unit :=
  pending <- gets pending_bytes ;;
  match pending with
  | [] => ret tt
  | _ :: _ =>
      modify (set_pending_bytes []) ;;;
      BufferedWriter_write pending ;;;
      ret tt
  end.

(** [TextIOWrapper.write(s)].  A wrapper on the input stream is not
    writable ([io.UnsupportedOperation], a ValueError). *)
Definition text_write (self : TextIOWrapper) (s : str) : M Conn nat :=
  check_open (buffer self) ;;;
  match buffer self with
  | Input => raise ValueError
  | Output =>
      let needflush :=
        line_buffering self && (has_char 10 s || has_char 13 s) in
      b <- lift (codec_encode (encoding self) s) ;;
      pending <- gets pending_bytes ;;
      (if CHUNK_SIZE <? len pending + len b
       then _writeflush ;;; modify (set_pending_bytes b)
       else modify (set_pending_bytes (pending ++ b))) ;;;
      pending' <- gets pending_bytes ;;
      (if (CHUNK_SIZE <=? len pending') || needflush
       then _writeflush else ret tt) ;;;
      (if needflush then buffered_flush Output else ret tt) ;;;
      ret (length s)
  end.

(** [TextIOWrapper.flush()]. *)
Definition text_flush (self : TextIOWrapper) : M Conn unit :=
  check_open (buffer self) ;;;
  match buffer self with
  | Output => _writeflush
  | Input => ret tt
  end ;;;
  buffered_flush (buffer self).

(** [TextIOWrapper.closed]: that of the stream it wraps. *)
Definition text_closed (self : TextIOWrapper) : M Conn bool :=
  st <- gets (raw_of (buffer self)) ;;
  match st with Open => ret false | _ => ret true end.

(** [TextIOWrapper.close()]: flush, then close the wrapped stream whether
    or not the flush went through. *)
Definition text_close (self : TextIOWrapper) : M Conn unit :=
  closed <- text_closed self ;;
  if closed then ret tt
  else try_finally (text_flush self) (buffered_close (buffer self)).

(** The decoder of the input wrapper: UTF-8, then universal newlines. *)
Definition decoder_decode (self : TextIOWrapper) (input : bytes) (final : bool)
  : M Conn str :=
  held <- gets dec_buffer ;;
  match codec_decode (encoding self) (held ++ input) final with
  | None => raise UnicodeDecodeError
  | Some (text, rest) =>
      modify (set_dec_buffer rest) ;;;
      cr <- gets dec_pendingcr ;;
      modify (set_dec_pendingcr (snd (newline_decode cr text final))) ;;;
      ret (fst (newline_decode cr text final))
  end.

(** [_read_chunk]: one [read1], decoded; false at the end of the stream. *)
Definition _read_chunk (self : TextIOWrapper) (size_hint : nat) : M Conn bool :=
  input_chunk <- BufferedReader_read1
                   (Nat.max (Z.to_nat CHUNK_SIZE) size_hint) ;;
  let eof := match input_chunk with [] => true | _ :: _ => false end in
  decoded <- decoder_decode self input_chunk eof ;;
  modify (set_decoded_chars decoded) ;;;
  ret (negb eof).

Definition _get_decoded_chars (n : nat) : M Conn str :=
  chars <- gets decoded_chars ;;
  modify (set_decoded_chars (skipn n chars)) ;;;
  ret (firstn n chars).

(** The loop of [read(size)]: chunks are read until [size] characters are
    there or the stream ends.  [rounds] bounds the number of chunks. *)
Fixpoint read_loop (self : TextIOWrapper) (rounds : nat) (size : nat)
    (result : str) : M Conn str :=
  match rounds with
  | O => ret result
  | S rounds' =>
      if (length result <? size)%nat then
        more <- _read_chunk self (size - length result) ;;
        chars <- _get_decoded_chars (size - length result) ;;
        if more then read_loop self rounds' size (result ++ chars)
        else ret (result ++ chars)
      else ret result
  end.

(** Every chunk but the last takes at least one octet from the peer. *)
Definition read_rounds (w : Conn) : nat :=
  S (length (concat (inbox w))).

(** [TextIOWrapper.read(size)] for [size >= 0].  A wrapper on the output
    stream is not readable ([io.UnsupportedOperation], a ValueError). *)
Definition text_read (self : TextIOWrapper) (size : nat) : M Conn str :=
  check_open (buffer self) ;;;
  match buffer self with
  | Output => raise ValueError
  | Input =>
      result <- _get_decoded_chars size ;;
      rounds <- gets read_rounds ;;
      read_loop self rounds size result
  end.

(* ================================================================== *)
(** * [connect_in_text_mode] *)

Definition connect_in_text_mode {T} (socket_path : Path)
    (body : TextIO * TextIO -> M Conn T) : M Conn T :=
  connect socket_path
    (fun channels =>
       input <- TextIOWrapper_new (fst channels) (lit "utf-8") true ;;
       output <- TextIOWrapper_new (snd channels) (lit "utf-8") true ;;
       body (input, output)).

(* ================================================================== *)
(** * Callers *)

(** What a caller's block does with the two binary streams, as far as it
    is modelled: [read1], the read that makes at most one [recv] and takes
    nothing ahead of the caller, and [write], [flush] and [close].  ([read]
    and [readline], which fill the reader's buffer ahead of the caller, are
    not among them.) *)
Inductive bin_op : Type :=
| BRead1 (size : nat)          (* input_stream.read1(size) *)
| BWrite (data : bytes)        (* output_stream.write(data) *)
| BFlush                       (* output_stream.flush() *)
| BCloseInput                  (* input_stream.close() *)
| BCloseOutput.                (* output_stream.close() *)

(** What a caller's block can do with the two text streams. *)
Inductive text_op : Type :=
| TRead (size : nat)           (* input_stream.read(size) *)
| TWrite (s : str)             (* output_stream.write(s) *)
| TFlush                       (* output_stream.flush() *)
| TCloseInput                  (* input_stream.close() *)
| TCloseOutput.                (* output_stream.close() *)

Inductive value : Type :=
| VNone
| VInt (n : nat)
| VBytes (b : bytes)
| VStr (s : str).

Definition run_bin_op (streams : BinaryIO * BinaryIO) (op : bin_op)
  : M Conn value :=
  match op with
  | BRead1 size => b <- BufferedReader_read1 size ;; ret (VBytes b)
  | BWrite data => n <- BufferedWriter_write data ;; ret (VInt n)
  | BFlush => buffered_flush (snd streams) ;;; ret VNone
  | BCloseInput => buffered_close (fst streams) ;;; ret VNone
  | BCloseOutput => buffered_close (snd streams) ;;; ret VNone
  end.

Definition run_text_op (streams : TextIO * TextIO) (op : text_op)
  : M Conn value :=
  match op with
  | TRead size => s <- text_read (fst streams) size ;; ret (VStr s)
  | TWrite s => n <- text_write (snd streams) s ;; ret (VInt n)
  | TFlush => text_flush (snd streams) ;;; ret VNone
  | TCloseInput => text_close (fst streams) ;;; ret VNone
  | TCloseOutput => text_close (snd streams) ;;; ret VNone
  end.

(** A block as the sequence of operations it performs.  Each operation is
    marked with whether the block catches what it raises; the first
    exception not caught leaves the block. *)
Fixpoint run_script {Op} (run : Op -> M Conn value)
    (script : list (Op * bool)) : M Conn (list (result value)) :=
  match script with
  | [] => ret []
  | (op, caught) :: script' =>
      fun w =>
        match run op w with
        | (Ok v, w') =>
            (vs <- run_script run script' ;; ret (Ok v :: vs)) w'
        | (Raise e, w') =>
            if caught
            then (vs <- run_script run script' ;; ret (Raise e :: vs)) w'
            else (Raise e, w')
        end
  end.

(** A block that runs a script and then returns what it saw, or raises. *)
Definition block {Op} (run : Op -> M Conn value) (script : list (Op * bool))
    (ending : option exn) : M Conn (list (result value)) :=
  vs <- run_script run script ;;
  match ending with
  | None => ret vs
  | Some e => raise e
  end.

(* ================================================================== *)
(** * Predicates used in the statements *)

(** One of [0-9a-f]. *)
Definition is_lower_hex (c : Z) : bool :=
  ((48 <=? c) && (c <=? 57)) || ((97 <=? c) && (c <=? 102)).

(** A computation that leaves the host as it found it. *)
Definition readonly {A} (m : M Host A) : Prop := forall h, snd (m h) = h.

(** How the loop takes an answer of [readlink]: outside strict mode an
    error is as good as "no link". *)
Definition answer (strict : bool) (r : readlink_result) : readlink_result :=
  match r with
  | Failed e => if strict then Failed e else NotALink
  | _ => r
  end.

(** The host where every name that cannot be read is a directory. *)
Definition forgiving (h : Host) : Host :=
  mkHost (host_cwd h)
         (fun p => match host_readlink h p with
                   | Failed _ => NotALink
                   | r => r
                   end)
         (host_stack h).

(** The host after the directories [dirs] are created: each of these
    paths that could not be read is now a directory. *)
Definition mkdirs (dirs : list (list str)) (h : Host) : Host :=
  mkHost (host_cwd h)
         (fun p => match host_readlink h p with
                   | Failed e =>
                       if existsb (path_eqb p) dirs then NotALink
                       else Failed e
                   | r => r
                   end)
         (host_stack h).

(** A host where [/srv/link] is a symbolic link to [real], [/srv] and
    [/srv/real] are directories and nothing else exists; the working
    directory is [/srv]. *)
Definition linked_host : Host :=
  mkHost (Cwd [lit "srv"])
    (fun p =>
       if path_eqb p [lit "srv"; lit "link"] then Target (lit "real")
       else if path_eqb p [lit "srv"] || path_eqb p [lit "srv"; lit "real"]
       then NotALink
       else Failed ENOENT)
    100.

(** ** The connection *)

Definition refs_of (l : life) : nat := match l with Open => 1%nat | _ => 0%nat end.

Definition is_io (c : syscall) : bool := is_send c || is_recv c.

(** Inside the scope of [connect]: under the oracle [o], the socket is
    connected to [address] and open, nothing but sends and receives followed
    the connect, both streams exist, and [_io_refs] counts the open ones. *)
Definition in_scope (o : Oracle) (address : str) (w : Conn) : Prop :=
  oracle w = o /\ fd w = Open /\ sock_closed w = false
  /\ (exists calls,
         syscalls w = [SysSocket None; SysConnect address None] ++ calls
         /\ forallb is_io calls = true)
  /\ in_raw w <> Absent /\ out_raw w <> Absent
  /\ sock_io_refs w = (refs_of (in_raw w) + refs_of (out_raw w))%nat.

(** After the scope: everything is closed, and the system calls were one
    [socket], one [connect] to [address], sends and receives, and one
    [close] at the very end. *)
Definition released (o : Oracle) (address : str) (w : Conn) : Prop :=
  oracle w = o /\ fd w = Closed /\ sock_closed w = true /\ sock_io_refs w = 0%nat
  /\ in_raw w = Closed /\ out_raw w = Closed
  /\ exists calls,
       syscalls w = [SysSocket None; SysConnect address None] ++ calls
                      ++ [SysClose (close_errno o)]
       /\ forallb is_io calls = true.

(** The connection as the caller's block finds it. *)
Definition entered (o : Oracle) (peer : list bytes) (address : str) : Conn :=
  mkConn o peer [SysSocket None; SysConnect address None] Open false 2
         Open Open [] [] [] false [].

(** An outcome followed by a cleanup whose exception, if any, replaces it. *)
Definition after {T} (r : result T * Conn) (cleanup : M Conn unit)
  : result T * Conn :=
  match cleanup (snd r) with
  | (Ok _, w) => (fst r, w)
  | (Raise e, w) => (Raise e, w)
  end.

(** The three exits of [connect], innermost first. *)
Definition leave {T} (r : result T * Conn) : result T * Conn :=
  after (after (after r (IOBase_exit Output)) (IOBase_exit Input))
        (socket_exit ClientSocket).

(** [m] takes a world satisfying [P] to an outcome and a world satisfying
    [Q]. *)
Definition hoare {A} (P : Conn -> Prop) (m : M Conn A)
    (Q : result A -> Conn -> Prop) : Prop :=
  forall w, P w -> Q (fst (m w)) (snd (m w)).

Definition keeps {A} (P : Conn -> Prop) (m : M Conn A) : Prop :=
  hoare P m (fun _ => P).

(** No [send] will fail. *)
Definition sends_ok (o : Oracle) : Prop := forall i, send_errno o i = None.

(** An oracle under which every system call succeeds. *)
Definition ok_oracle : Oracle :=
  mkOracle None None (fun _ => None) (fun _ => None) None.

(** The close of the socket reports no error. *)
Definition close_quiet (o : Oracle) : Prop :=
  close_errno o = None \/ close_errno o = Some ECONNRESET.

(** What a script of binary operations wrote: the data of the writes that
    returned, in order. *)
Fixpoint written (script : list (bin_op * bool)) (vs : list (result value))
  : bytes :=
  match script, vs with
  | (BWrite data, _) :: script', Ok _ :: vs' => data ++ written script' vs'
  | _ :: script', _ :: vs' => written script' vs'
  | _, _ => []
  end.

(** Inside a block that uses the binary streams only: what was written is
    on the wire or in the writer's buffer, in order, and a closed writer
    holds nothing. *)
Definition bin_flow (o : Oracle) (address : str) (acc : bytes) (w : Conn)
  : Prop :=
  in_scope o address w
  /\ wire w ++ write_buf w = acc
  /\ (out_raw w = Closed -> write_buf w = []).


(** ** The text streams *)

(** The two wrappers that [connect_in_text_mode] hands to the block. *)
Definition text_input : TextIO := mkText Input (lit "utf-8") true.
Definition text_output : TextIO := mkText Output (lit "utf-8") true.

(** The text has a line end, which makes a line-buffered wrapper flush. *)
Definition ends_line (s : str) : bool := has_char 10 s || has_char 13 s.

(** The octets of a text; none where the codec refuses it. *)
Definition encoded (s : str) : bytes :=
  match encode_utf8 s with Ok b => b | Raise _ => [] end.

(** What a script of text operations wrote: the octets of the texts of the
    writes that returned, in order. *)
Fixpoint text_written (script : list (text_op * bool))
    (vs : list (result value)) : bytes :=
  match script, vs with
  | (TWrite s, _) :: script', Ok _ :: vs' => encoded s ++ text_written script' vs'
  | _ :: script', _ :: vs' => text_written script' vs'
  | _, _ => []
  end.

(** The output side while its stream is open: [x] is on the wire, the
    buffered writer holds [y] and the wrapper holds [z]. *)
Definition out_state (o : Oracle) (address : str) (x y z : bytes) (w : Conn)
  : Prop :=
  in_scope o address w /\ out_raw w = Open
  /\ wire w = x /\ write_buf w = y /\ pending_bytes w = z.

(** The output side is as it is in [w0]. *)
Definition out_same (w0 w : Conn) : Prop :=
  wire w = wire w0 /\ write_buf w = write_buf w0
  /\ pending_bytes w = pending_bytes w0 /\ out_raw w = out_raw w0.

(** Inside a block that uses the text streams only: what was written is on
    the wire, in the writer's buffer or in the wrapper, in order, and a
    closed writer holds nothing. *)
Definition text_flow (o : Oracle) (address : str) (acc : bytes) (w : Conn)
  : Prop :=
  in_scope o address w
  /\ wire w ++ write_buf w ++ pending_bytes w = acc
  /\ (out_raw w = Closed -> write_buf w = []).

(** A computation together with what the peer has received when it ends. *)
Definition and_wire {A} (m : M Conn A) : M Conn (A * bytes) :=
  r <- m ;; sent <- gets wire ;; ret (r, sent).

(** An operation that makes the output wrapper hand nothing on: a read, or
    a write of a text without a line end. *)
Definition keeps_back (op : text_op) : bool :=
  match op with
  | TWrite s => negb (ends_line s)
  | TRead _ | TCloseInput => true
  | TFlush | TCloseOutput => false
  end.

(** The octets of all the texts that a script writes. *)
Fixpoint script_octets (script : list (text_op * bool)) : Z :=
  match script with
  | [] => 0
  | (TWrite s, _) :: script' => len (encoded s) + script_octets script'
  | _ :: script' => script_octets script'
  end.


(** The octets that a script of binary operations read: the results of
    the reads that returned, in order. *)
Fixpoint received (vs : list (result value)) : bytes :=
  match vs with
  | [] => []
  | Ok (VBytes b) :: vs' => b ++ received vs'
  | _ :: vs' => received vs'
  end.

(** Inside a block: what was read and what the peer's octets still to be
    received make up what the peer sent. *)
Definition read_flow (o : Oracle) (address : str) (peer : list bytes)
    (acc : bytes) (w : Conn) : Prop :=
  in_scope o address w /\ acc ++ concat (inbox w) = concat peer.

(** The only exceptions of [m] are those of [allowed]. *)
Definition raises_only {S A} (allowed : exn -> Prop) (m : M S A) : Prop :=
  forall h e, fst (m h) = Raise e -> allowed e.

(** What non-strict resolution can raise apart from the error of
    [os.getcwd]: a loop of links, links nested too deep, a name that the
    file system encoding or UTF-8 cannot encode, a name with a NUL. *)
Definition resolution_error (e : exn) : Prop :=
  e = RuntimeError \/ e = RecursionError \/ e = UnicodeEncodeError
  \/ e = ValueError.


(** ** Reading text *)

(** A decoded text put in front of what a later decoding gives. *)
Definition prepend (s : str) (r : option (str * bytes)) : option (str * bytes) :=
  match r with
  | Some (t, rest) => Some (s ++ t, rest)
  | None => None
  end.

(** [f] holds of the 2^k numbers from [base * 2^k] on. *)
Fixpoint all_below (k : nat) (base : Z) (f : Z -> bool) : bool :=
  match k with
  | O => f base
  | S k' => all_below k' (2 * base) f && all_below k' (2 * base + 1) f
  end.

(** The octets of the code point [c], if it has any, decode to [c]. *)
Definition decodes_back (c : Z) : bool :=
  match encode_codepoint c with
  | None => true
  | Some bs =>
      match utf8_decode bs false with
      | Some ([c'], []) => c' =? c
      | _ => false
      end
  end.

(** A carriage return that the newline decoder holds back. *)
Definition held_cr (pendingcr : bool) : str :=
  if pendingcr then [13] else [].



(* ================================================================== *)
(** * Test vectors *)

Example md5_empty :
  MD5.hexdigest [] = lit "d41d8cd98f00b204e9800998ecf8427e".
Proof. vm_compute. reflexivity. Qed.

Example md5_abc :
  MD5.hexdigest (lit "abc") = lit "900150983cd24fb0d6963f7d28e17f72".
Proof. vm_compute. reflexivity. Qed.

Example gsp_scenario :
  fst (get_socket_path (parse_parts (lit "/tmp"))
                       (parse_parts (lit "/home/user/project"))
                       (plain_host [lit "work"]))
  = Ok (parse_parts
          (lit "/tmp/pyre_server_90722f2638004be06d790eaac9ac1f8a.sock")).
Proof. vm_compute. reflexivity. Qed.

(* ================================================================== *)
(** * The digest is 32 lowercase hexadecimal characters *)

Lemma hexchar_lower (n : Z) :
  0 <= n < 16 -> is_lower_hex (MD5.hexchar n) = true.
Proof.
  intros Hn.
  assert (E : exists k, (k < 16)%nat /\ n = Z.of_nat k).
  { exists (Z.to_nat n). split; lia. }
  destruct E as [k [Hk ->]].
  unfold MD5.hexchar. rewrite Nat2Z.id.
  do 16 (destruct k as [|k]; [reflexivity|]). lia.
Qed.

Lemma hex_length (b : bytes) : length (MD5.hex b) = (2 * length b)%nat.
Proof. induction b as [|x b IH]; simpl; [reflexivity|]. rewrite IH. lia. Qed.

Lemma hex_lower (b : bytes) :
  Forall (fun x => 0 <= x < 256) b ->
  Forall (fun c => is_lower_hex c = true) (MD5.hex b).
Proof.
  induction 1 as [|x b Hx _ IH]; simpl; [constructor|].
  constructor; [|constructor; [|exact IH]]; apply hexchar_lower.
  - split; [apply Z.div_pos; lia | apply Z.div_lt_upper_bound; lia].
  - apply Z.mod_pos_bound. lia.
Qed.

Lemma bytes_le_length (x : Z) : length (MD5.bytes_le x) = 4%nat.
Proof. reflexivity. Qed.

Lemma bytes_le_range (x : Z) : Forall (fun b => 0 <= b < 256) (MD5.bytes_le x).
Proof.
  unfold MD5.bytes_le.
  repeat (constructor; [apply Z.mod_pos_bound; lia|]). constructor.
Qed.

Lemma digest_length (msg : bytes) : length (MD5.digest msg) = 16%nat.
Proof.
  unfold MD5.digest.
  destruct (fold_left MD5.compress _ MD5.init) as [a b c d].
  rewrite !length_app, !bytes_le_length. reflexivity.
Qed.

Lemma digest_range (msg : bytes) :
  Forall (fun b => 0 <= b < 256) (MD5.digest msg).
Proof.
  unfold MD5.digest.
  destruct (fold_left MD5.compress _ MD5.init) as [a b c d].
  repeat (apply Forall_app; split); apply bytes_le_range.
Qed.

Lemma hexdigest_length (msg : bytes) : length (MD5.hexdigest msg) = 32%nat.
Proof. unfold MD5.hexdigest. rewrite hex_length, digest_length. reflexivity. Qed.

Lemma hexdigest_lower (msg : bytes) :
  Forall (fun c => is_lower_hex c = true) (MD5.hexdigest msg).
Proof. apply hex_lower, digest_range. Qed.

(* ================================================================== *)
(** * The socket file name is one path component *)

Lemma split_sep_no_sep (s : str) :
  Forall (fun c => c <> sep) s -> split_sep s = [s].
Proof.
  induction 1 as [|c s Hc _ IH]; simpl; [reflexivity|].
  destruct (Z.eqb_spec c sep) as [E|_]; [contradiction|].
  rewrite IH. reflexivity.
Qed.

Lemma lower_hex_not_sep (c : Z) : is_lower_hex c = true -> c <> sep.
Proof. unfold is_lower_hex, sep. lia. Qed.

Lemma socket_name_no_sep (d : str) :
  Forall (fun c => is_lower_hex c = true) d ->
  Forall (fun c => c <> sep) (lit "pyre_server_" ++ d ++ lit ".sock").
Proof.
  intros Hd. apply Forall_app. split; [|apply Forall_app; split].
  - simpl. repeat (constructor; [unfold sep; lia|]). constructor.
  - eapply Forall_impl; [|exact Hd]. apply lower_hex_not_sep.
  - simpl. repeat (constructor; [unfold sep; lia|]). constructor.
Qed.

Lemma parse_parts_socket_name (d : str) :
  Forall (fun c => is_lower_hex c = true) d ->
  parse_parts (lit "pyre_server_" ++ d ++ lit ".sock")
  = mkPath [] [lit "pyre_server_" ++ d ++ lit ".sock"].
Proof.
  intros Hd. unfold parse_parts.
  assert (Hs : splitroot (lit "pyre_server_" ++ d ++ lit ".sock")
               = ([], lit "pyre_server_" ++ d ++ lit ".sock")) by reflexivity.
  rewrite Hs, (split_sep_no_sep (socket_name_no_sep Hd)). reflexivity.
Qed.

Lemma truediv_socket_name (root : Path) (d : str) :
  Forall (fun c => is_lower_hex c = true) d ->
  truediv root (lit "pyre_server_" ++ d ++ lit ".sock")
  = mkPath (p_root root)
           (p_parts root ++ [lit "pyre_server_" ++ d ++ lit ".sock"]).
Proof.
  intros Hd. unfold truediv. rewrite (parse_parts_socket_name Hd). reflexivity.
Qed.

Lemma name_truediv_socket_name (root : Path) (d : str) :
  Forall (fun c => is_lower_hex c = true) d ->
  name (truediv root (lit "pyre_server_" ++ d ++ lit ".sock"))
  = lit "pyre_server_" ++ d ++ lit ".sock".
Proof.
  intros Hd. rewrite (truediv_socket_name root Hd).
  unfold name. simpl p_parts. apply last_last.
Qed.

(* ================================================================== *)
(** * The resolver only reads the host *)

Lemma Ok_inj {A} (a b : A) : Ok a = Ok b -> a = b.
Proof. intros H. inversion H. reflexivity. Qed.

Lemma bind_run {S A B} (m : M S A) (k : A -> M S B) (w : S) :
  bind m k w = match m w with
               | (Ok a, w') => k a w'
               | (Raise e, w') => (Raise e, w')
               end.
Proof. reflexivity. Qed.

Lemma readonly_bind {A B} (m : M Host A) (k : A -> M Host B) :
  readonly m -> (forall a, readonly (k a)) -> readonly (bind m k).
Proof.
  intros Hm Hk h. rewrite bind_run. specialize (Hm h).
  destruct (m h) as [[a|e] h']; simpl in Hm; subst h'; [apply Hk|reflexivity].
Qed.

Lemma readonly_ret {A} (a : A) : readonly (ret a).
Proof. intros h. reflexivity. Qed.

Lemma readonly_raise {A} (e : exn) : readonly (@raise Host A e).
Proof. intros h. reflexivity. Qed.

Lemma readonly_gets {A} (f : Host -> A) : readonly (gets f).
Proof. intros h. reflexivity. Qed.

Lemma readonly_lift {A} (r : result A) : readonly (@lift Host A r).
Proof. intros h. reflexivity. Qed.

Lemma readonly_os_readlink path : readonly (os_readlink path).
Proof.
  unfold os_readlink.
  destruct (negb (forallb (forallb fs_encodable) path));
    [apply readonly_raise|].
  destruct (existsb (existsb (Z.eqb 0)) path);
    [apply readonly_raise|apply readonly_gets].
Qed.

Lemma readonly_os_getcwd : readonly os_getcwd.
Proof.
  unfold os_getcwd. apply readonly_bind; [apply readonly_gets|].
  intros [parts|e]; [apply readonly_ret|apply readonly_raise].
Qed.

Lemma walk_readonly again strict :
  (forall seen path rest, readonly (again seen path rest)) ->
  forall names path seen, readonly (walk again strict names path seen).
Proof.
  intros Hagain names.
  induction names as [|n names IH]; intros path seen; cbn [walk].
  - apply readonly_ret.
  - destruct (is_component n); cbn [negb]; [|apply IH].
    destruct (str_eqb n (lit "..")); [apply IH|].
    destruct (seen_get seen (path ++ [n])) as [[cached|]|].
    + apply IH.
    + apply readonly_raise.
    + apply readonly_bind; [apply readonly_os_readlink|].
      intros [target| |e].
      * apply readonly_bind; [apply Hagain|]. intros ps. apply IH.
      * apply IH.
      * destruct strict; [apply readonly_raise|apply IH].
Qed.

Lemma _resolve_readonly depth strict :
  forall seen path rest, readonly (_resolve depth strict seen path rest).
Proof.
  induction depth as [|depth IH]; intros seen path rest; simpl.
  - apply readonly_raise.
  - apply walk_readonly. exact IH.
Qed.

Lemma resolve_readonly strict p : readonly (resolve strict p).
Proof.
  unfold resolve.
  apply readonly_bind.
  { destruct (is_absolute p); [apply readonly_ret|apply readonly_os_getcwd]. }
  intros base. apply readonly_bind; [apply readonly_gets|].
  intros depth. apply readonly_bind; [apply _resolve_readonly|].
  intros ps. apply readonly_ret.
Qed.

Lemma get_socket_path_readonly root log_directory :
  readonly (get_socket_path root log_directory).
Proof.
  unfold get_socket_path.
  apply readonly_bind; [apply resolve_readonly|].
  intros resolved. apply readonly_bind; [apply readonly_lift|].
  intros encoded. apply readonly_ret.
Qed.

Lemma canonical_str_readonly p : readonly (canonical_str p).
Proof.
  unfold canonical_str.
  apply readonly_bind; [apply resolve_readonly|].
  intros resolved. apply readonly_ret.
Qed.

(** What [get_socket_path] returns, in terms of the text it hashes. *)
Lemma get_socket_path_run root log_directory h :
  fst (get_socket_path root log_directory h)
  = match fst (canonical_str log_directory h) with
    | Ok s =>
        match encode_utf8 s with
        | Ok encoded =>
            Ok (truediv root (lit "pyre_server_" ++ MD5.hexdigest encoded
                                                 ++ lit ".sock"))
        | Raise e => Raise e
        end
    | Raise e => Raise e
    end.
Proof.
  unfold get_socket_path, canonical_str. rewrite !bind_run.
  destruct (resolve false log_directory h) as [[resolved|e] h']; simpl;
    [|reflexivity].
  unfold lift. destruct (encode_utf8 (str_of_path resolved)); reflexivity.
Qed.


(* ================================================================== *)
(** * Decoding UTF-8 in pieces *)

Lemma prepend_nil r : prepend [] r = r.
Proof. destruct r as [[t rest]|]; reflexivity. Qed.

Lemma emit_prepend c s r : emit c (prepend s r) = prepend (c :: s) r.
Proof. destruct r as [[t rest]|]; reflexivity. Qed.

Lemma second_of_3_short_of b0 b1 :
  second_of_3 b0 b1 = true -> second_of_3_short b0 b1 = true.
Proof.
  unfold second_of_3, second_of_3_short, is_cont.
  destruct (b0 =? 0xE0) eqn:E0; [|destruct (b0 =? 0xED)]; lia.
Qed.

(** What the decoder makes of [A ++ B] in one go is what it makes of [A],
    then of what [A] left unfinished followed by [B]. *)
Lemma utf8_decode_app_len (n : nat) :
  forall (A B : bytes) (final : bool),
    (length A <= n)%nat ->
    utf8_decode (A ++ B) final
    = match utf8_decode A false with
      | Some (s1, r) => prepend s1 (utf8_decode (r ++ B) final)
      | None => None
      end.
Proof.
  induction n as [|n IH]; intros A B final Hlen.
  - destruct A; [|simpl in Hlen; lia]. simpl. rewrite prepend_nil. reflexivity.
  - assert (Hstep : forall c A',
               (length A' <= n)%nat ->
               emit c (utf8_decode (A' ++ B) final)
               = match emit c (utf8_decode A' false) with
                 | Some (s1, r) => prepend s1 (utf8_decode (r ++ B) final)
                 | None => None
                 end).
    { intros c A' H'. rewrite (IH A' B final H').
      destruct (utf8_decode A' false) as [[s1 r]|]; [|reflexivity].
      simpl. apply emit_prepend. }
    destruct A as [|b0 r0]; [simpl; rewrite prepend_nil; reflexivity|].
    simpl in Hlen.
    destruct r0 as [|b1 r1].
    { (* one octet *)
      cbn [utf8_decode app].
      destruct ((0 <=? b0) && (b0 <? 0x80)) eqn:C0.
      - apply (Hstep b0 []). simpl in *. lia.
      - destruct (b0 <? 0xC2) eqn:C1; [reflexivity|].
        destruct (b0 <? 0xE0) eqn:C2;
          [|destruct (b0 <? 0xF0) eqn:C3; [|destruct (b0 <? 0xF5) eqn:C4]];
          try reflexivity;
          rewrite prepend_nil; cbn [utf8_decode app];
          rewrite C0, C1, ?C2, ?C3, ?C4; reflexivity. }
    destruct r1 as [|b2 r2].
    { (* two octets *)
      cbn [utf8_decode app].
      destruct ((0 <=? b0) && (b0 <? 0x80)) eqn:C0.
      - apply (Hstep b0 [b1]). simpl in *. lia.
      - destruct (b0 <? 0xC2) eqn:C1; [reflexivity|].
        destruct (b0 <? 0xE0) eqn:C2.
        + destruct (is_cont b1); [|reflexivity].
          apply (Hstep (cp2 b0 b1) []). simpl in *. lia.
        + destruct (b0 <? 0xF0) eqn:C3.
          * destruct (second_of_3_short b0 b1) eqn:S3.
            -- rewrite prepend_nil. cbn [utf8_decode app].
               rewrite C0, C1, C2, C3, ?S3. reflexivity.
            -- destruct B as [|b2 B]; [reflexivity|].
               destruct (second_of_3 b0 b1) eqn:S3'; [|reflexivity].
               rewrite (second_of_3_short_of _ _ S3') in S3. discriminate.
          * destruct (b0 <? 0xF5) eqn:C4; [|reflexivity].
            destruct (second_of_4 b0 b1) eqn:S4; [|reflexivity].
            rewrite prepend_nil. cbn [utf8_decode app].
            rewrite C0, C1, C2, C3, C4, S4. reflexivity. }
    destruct r2 as [|b3 r3].
    { (* three octets *)
      cbn [utf8_decode app].
      destruct ((0 <=? b0) && (b0 <? 0x80)) eqn:C0.
      - apply (Hstep b0 [b1; b2]). simpl in *. lia.
      - destruct (b0 <? 0xC2) eqn:C1; [reflexivity|].
        destruct (b0 <? 0xE0) eqn:C2.
        + destruct (is_cont b1); [|reflexivity].
          apply (Hstep (cp2 b0 b1) [b2]). simpl in *. lia.
        + destruct (b0 <? 0xF0) eqn:C3.
          * destruct (second_of_3 b0 b1 && is_cont b2); [|reflexivity].
            apply (Hstep (cp3 b0 b1 b2) []). simpl in *. lia.
          * destruct (b0 <? 0xF5) eqn:C4; [|reflexivity].
            destruct (second_of_4 b0 b1) eqn:S4; [|reflexivity].
            destruct (is_cont b2) eqn:I2; [|reflexivity].
            rewrite prepend_nil. cbn [utf8_decode app].
            rewrite C0, C1, C2, C3, C4, S4, I2. reflexivity. }
    (* four octets or more *)
    cbn [utf8_decode app].
    destruct ((0 <=? b0) && (b0 <? 0x80)) eqn:C0.
    + apply (Hstep b0 (b1 :: b2 :: b3 :: r3)). simpl in *. lia.
    + destruct (b0 <? 0xC2) eqn:C1; [reflexivity|].
      destruct (b0 <? 0xE0) eqn:C2.
      * destruct (is_cont b1); [|reflexivity].
        apply (Hstep (cp2 b0 b1) (b2 :: b3 :: r3)). simpl in *. lia.
      * destruct (b0 <? 0xF0) eqn:C3.
        -- destruct (second_of_3 b0 b1 && is_cont b2); [|reflexivity].
           apply (Hstep (cp3 b0 b1 b2) (b3 :: r3)). simpl in *. lia.
        -- destruct (b0 <? 0xF5) eqn:C4; [|reflexivity].
           destruct (second_of_4 b0 b1) eqn:S4; [|reflexivity].
           destruct (is_cont b2) eqn:I2; [|reflexivity].
           destruct (is_cont b3) eqn:I3; [|reflexivity].
           apply (Hstep (cp4 b0 b1 b2 b3) r3). simpl in *. lia.
Qed.

Lemma utf8_decode_app (A B : bytes) (final : bool) :
  utf8_decode (A ++ B) final
  = match utf8_decode A false with
    | Some (s1, r) => prepend s1 (utf8_decode (r ++ B) final)
    | None => None
    end.
Proof. apply (@utf8_decode_app_len (length A)). lia. Qed.

(* ================================================================== *)
(** * Encoding and decoding *)

Lemma all_below_spec (f : Z -> bool) (k : nat) :
  forall base,
    all_below k base f = true ->
    forall c, base * 2 ^ Z.of_nat k <= c < (base + 1) * 2 ^ Z.of_nat k ->
              f c = true.
Proof.
  induction k as [|k IH]; intros base H c Hc.
  - simpl in *. replace c with base by lia. exact H.
  - cbn [all_below] in H. apply andb_true_iff in H. destruct H as [H0 H1].
    rewrite Nat2Z.inj_succ, Z.pow_succ_r in Hc by lia.
    assert (Hp : 0 < 2 ^ Z.of_nat k) by (apply Z.pow_pos_nonneg; lia).
    destruct (Z_lt_le_dec c ((2 * base + 1) * 2 ^ Z.of_nat k)).
    + apply (IH (2 * base) H0). nia.
    + apply (IH (2 * base + 1) H1). nia.
Qed.

Lemma decodes_back_low : all_below 20 0 decodes_back = true.
Proof. vm_compute. reflexivity. Qed.

Lemma decodes_back_high : all_below 16 16 decodes_back = true.
Proof. vm_compute. reflexivity. Qed.

(** One code point, encoded and decoded again. *)
Lemma decode_encode_codepoint (c : Z) (bs : bytes) :
  encode_codepoint c = Some bs -> utf8_decode bs false = Some ([c], []).
Proof.
  intros E.
  assert (Hc : 0 <= c < 0x110000).
  { unfold encode_codepoint in E.
    destruct (c <? 0) eqn:C0; [discriminate|].
    destruct (c <? 0x80) eqn:C1; [lia|].
    destruct (c <? 0x800) eqn:C2; [lia|].
    destruct (c <? 0x10000) eqn:C3; [lia|].
    destruct (c <? 0x110000) eqn:C4; [lia|discriminate]. }
  assert (Hd : decodes_back c = true).
  { destruct (Z_lt_le_dec c 1048576).
    - apply (@all_below_spec decodes_back 20 0 decodes_back_low).
      change (2 ^ Z.of_nat 20) with 1048576. lia.
    - apply (@all_below_spec decodes_back 16 16 decodes_back_high).
      change (2 ^ Z.of_nat 16) with 65536. lia. }
  unfold decodes_back in Hd. rewrite E in Hd.
  destruct (utf8_decode bs false) as [[[|c' [|]] [|]]|]; try discriminate.
  apply Z.eqb_eq in Hd. subst c'. reflexivity.
Qed.

(** A text, encoded and decoded again, whatever follows it. *)
Lemma decode_encode_utf8 (s : str) :
  forall b rest final,
    encode_utf8 s = Ok b ->
    utf8_decode (b ++ rest) final = prepend s (utf8_decode rest final).
Proof.
  induction s as [|c s IH]; intros b rest final E; simpl in E.
  - apply Ok_inj in E. subst b. simpl. rewrite prepend_nil. reflexivity.
  - destruct (encode_codepoint c) as [bs|] eqn:Ec; [|discriminate].
    destruct (encode_utf8 s) as [b'|e] eqn:Es; [|discriminate].
    apply Ok_inj in E. subst b.
    rewrite <- app_assoc, utf8_decode_app.
    rewrite (decode_encode_codepoint c Ec). cbn [app].
    rewrite (IH b' rest final eq_refl).
    destruct (utf8_decode rest final) as [[t r]|]; reflexivity.
Qed.


Lemma encode_utf8_raise s e : encode_utf8 s = Raise e -> e = UnicodeEncodeError.
Proof.
  induction s as [|c s IH]; simpl; [discriminate|].
  destruct (encode_codepoint c); [|congruence].
  destruct (encode_utf8 s); [discriminate|].
  intros H. apply IH. congruence.
Qed.

(* ================================================================== *)
(** * The resolver: format, length, determinism *)

(** C1, as stated, fails: not every identifier has a socket path.  Where
    two symbolic links point at each other, resolution raises RuntimeError
    and nothing is returned. *)
Lemma get_socket_path_not_total :
  let h := mkHost (Cwd [lit "home"])
             (fun p =>
                if path_eqb p [lit "srv"; lit "a"] then Target (lit "b")
                else if path_eqb p [lit "srv"; lit "b"] then Target (lit "a")
                else if path_eqb p [lit "srv"] then NotALink
                else Failed ENOENT)
             100 in
  fst (get_socket_path (parse_parts (lit "/tmp"))
                       (parse_parts (lit "/srv/a/project")) h)
  = Raise RuntimeError.
Proof. vm_compute. reflexivity. Qed.

(** C1, amended.  For every host, root and identifier: when the identifier
    has a canonical string form [canonical] (its non-strict resolution, as
    text) and that text has a UTF-8 encoding [encoded] (octets that decode
    back to [canonical]), [get_socket_path root identifier] returns exactly
    [root / ("pyre_server_" + d + ".sock")] where [d] is the MD5 hex digest
    of [encoded], 32 characters, each one of [0-9a-f].  In every other case
    no path is returned: the call raises what the resolution raised, or
    UnicodeEncodeError where the text cannot be encoded. *)
Theorem get_socket_path_spec (h : Host) (root identifier : Path) :
  match fst (canonical_str identifier h) with
  | Ok canonical =>
      match encode_utf8 canonical with
      | Ok encoded =>
          fst (get_socket_path root identifier h)
          = Ok (truediv root (lit "pyre_server_" ++ MD5.hexdigest encoded
                                                 ++ lit ".sock"))
          /\ utf8_decode encoded true = Some (canonical, [])
          /\ length (MD5.hexdigest encoded) = 32%nat
          /\ Forall (fun c => is_lower_hex c = true) (MD5.hexdigest encoded)
      | Raise _ =>
          fst (get_socket_path root identifier h) = Raise UnicodeEncodeError
      end
  | Raise e => fst (get_socket_path root identifier h) = Raise e
  end.
Proof.
  rewrite get_socket_path_run.
  destruct (fst (canonical_str identifier h)) as [canonical|e]; [|reflexivity].
  destruct (encode_utf8 canonical) as [encoded|e] eqn:Henc.
  - split; [reflexivity|]. split; [|split].
    + pose proof (@decode_encode_utf8 canonical encoded [] true Henc) as Hd.
      rewrite app_nil_r in Hd. rewrite Hd. simpl. rewrite app_nil_r.
      reflexivity.
    + apply hexdigest_length.
    + apply hexdigest_lower.
  - rewrite (@encode_utf8_raise canonical e Henc). reflexivity.
Qed.

(** The identifier [/home/jörg/проект/日本語/😀], with characters of two,
    three and four octets; the digest is the one of [hashlib]. *)
Lemma get_socket_path_spec_witness :
  let identifier :=
    lit "/home/j" ++ [246] ++ lit "rg/" ++ [1087; 1088; 1086; 1077; 1082; 1090]
        ++ lit "/" ++ [26085; 26412; 35486] ++ lit "/" ++ [128512] in
  encode_utf8 identifier
  = Ok [47; 104; 111; 109; 101; 47; 106; 195; 182; 114; 103; 47; 208; 191;
        209; 128; 208; 190; 208; 181; 208; 186; 209; 130; 47; 230; 151; 165;
        230; 156; 172; 232; 170; 158; 47; 240; 159; 152; 128]
  /\ fst (get_socket_path (parse_parts (lit "/tmp")) (parse_parts identifier)
                          (plain_host [lit "work"]))
     = Ok (parse_parts
             (lit "/tmp/pyre_server_12ba08209adbc74a2d027c387e851a38.sock")).
Proof.
  intros identifier.
  assert (Henc : encode_utf8 identifier
    = Ok [47; 104; 111; 109; 101; 47; 106; 195; 182; 114; 103; 47; 208; 191;
          209; 128; 208; 190; 208; 181; 208; 186; 209; 130; 47; 230; 151; 165;
          230; 156; 172; 232; 170; 158; 47; 240; 159; 152; 128])
    by (vm_compute; reflexivity).
  assert (Hcanon : fst (canonical_str (parse_parts identifier)
                                      (plain_host [lit "work"]))
                   = Ok identifier) by (vm_compute; reflexivity).
  split; [exact Henc|].
  pose proof (get_socket_path_spec (plain_host [lit "work"])
                (parse_parts (lit "/tmp")) (parse_parts identifier)) as H.
  rewrite Hcanon, Henc in H. destruct H as [H _].
  rewrite H. vm_compute. reflexivity.
Defined.

(** C9.  Whatever the identifier, the last component of a path produced by
    [get_socket_path] has exactly 49 characters: 12 of prefix, 32 of digest
    and 5 of suffix. *)
Theorem socket_file_name_length (h : Host) (root identifier p : Path) :
  fst (get_socket_path root identifier h) = Ok p ->
  length (name p) = 49%nat.
Proof.
  rewrite get_socket_path_run.
  destruct (fst (canonical_str identifier h)) as [s|e]; [|discriminate].
  destruct (encode_utf8 s) as [encoded|e]; [|discriminate].
  intros Hp. apply Ok_inj in Hp. subst p.
  rewrite (name_truediv_socket_name root (hexdigest_lower encoded)).
  rewrite !length_app, hexdigest_length. reflexivity.
Qed.

Lemma socket_file_name_length_witness :
  fst (get_socket_path (parse_parts (lit "/tmp"))
         (parse_parts (lit "/a/very/long/project/directory/name/that/goes/on"))
         (plain_host [lit "work"]))
  = Ok (parse_parts
          (lit "/tmp/pyre_server_fd0c375411243bce87032869509a306c.sock"))
  /\ length (name (parse_parts
          (lit "/tmp/pyre_server_fd0c375411243bce87032869509a306c.sock")))
     = 49%nat.
Proof.
  assert (E : fst (get_socket_path (parse_parts (lit "/tmp"))
         (parse_parts (lit "/a/very/long/project/directory/name/that/goes/on"))
         (plain_host [lit "work"]))
  = Ok (parse_parts
          (lit "/tmp/pyre_server_fd0c375411243bce87032869509a306c.sock")))
    by (vm_compute; reflexivity).
  split; [exact E|]. exact (socket_file_name_length _ _ _ E).
Defined.

(** C10.  Two identifiers with the same canonical string form (the same
    outcome of non-strict resolution, as text) give the same result under
    every root; and the root goes into the result as it is: its anchor and
    its components, followed by the one component of the socket file. *)
Theorem get_socket_path_canonical (h : Host) (root a b : Path) :
  fst (canonical_str a h) = fst (canonical_str b h) ->
  fst (get_socket_path root a h) = fst (get_socket_path root b h)
  /\ (forall p, fst (get_socket_path root a h) = Ok p ->
                p_root p = p_root root
                /\ p_parts p = p_parts root ++ [name p]).
Proof.
  intros Heq. split.
  - rewrite !get_socket_path_run, Heq. reflexivity.
  - intros p. rewrite get_socket_path_run.
    destruct (fst (canonical_str a h)) as [s|e]; [|discriminate].
    destruct (encode_utf8 s) as [encoded|e]; [|discriminate].
    intros Hp. apply Ok_inj in Hp. subst p.
    rewrite (name_truediv_socket_name root (hexdigest_lower encoded)).
    rewrite (truediv_socket_name root (hexdigest_lower encoded)).
    split; reflexivity.
Qed.

Lemma get_socket_path_canonical_witness :
  fst (canonical_str (parse_parts (lit "/srv/link/logs")) linked_host)
  = fst (canonical_str (parse_parts (lit "real/logs")) linked_host)
  /\ fst (get_socket_path (parse_parts (lit "run/../sockets"))
                          (parse_parts (lit "/srv/link/logs")) linked_host)
     = Ok (parse_parts
       (lit "run/../sockets/pyre_server_d29088d89d9cd6e38eaa8ec858bb209d.sock"))
  /\ fst (get_socket_path (parse_parts (lit "run/../sockets"))
                          (parse_parts (lit "real/logs")) linked_host)
     = Ok (parse_parts
       (lit "run/../sockets/pyre_server_d29088d89d9cd6e38eaa8ec858bb209d.sock")).
Proof.
  assert (H : fst (canonical_str (parse_parts (lit "/srv/link/logs"))
                                 linked_host)
              = fst (canonical_str (parse_parts (lit "real/logs"))
                                   linked_host))
    by (vm_compute; reflexivity).
  split; [exact H|].
  destruct (get_socket_path_canonical linked_host
              (parse_parts (lit "run/../sockets")) _ _ H) as [E _].
  split; [vm_compute; reflexivity|].
  rewrite <- E. vm_compute. reflexivity.
Defined.

(** C4, as stated, fails: the result is not a function of the two arguments
    alone.  A relative identifier resolves against the working directory,
    so the same call made from [/a] and from [/b] gives two paths. *)
Lemma get_socket_path_depends_on_host :
  ~ (forall (root identifier : Path) (h1 h2 : Host),
        fst (get_socket_path root identifier h1)
        = fst (get_socket_path root identifier h2)).
Proof.
  intros H.
  specialize (H (parse_parts (lit "/tmp")) (parse_parts (lit "x"))
                (plain_host [lit "a"]) (plain_host [lit "b"])).
  vm_compute in H. discriminate H.
Qed.

(** C4, amended.  On any one host, two calls with the same arguments give
    the same result, and neither call changes the host: the resolver reads
    the working directory and the symbolic links and writes nothing. *)
Theorem get_socket_path_deterministic (root identifier : Path) (h : Host) :
  let (r1, h1) := get_socket_path root identifier h in
  let (r2, h2) := get_socket_path root identifier h1 in
  r1 = r2 /\ h1 = h /\ h2 = h.
Proof.
  pose proof (get_socket_path_readonly root identifier h) as H1.
  destruct (get_socket_path root identifier h) as [r1 h1] eqn:E1.
  simpl in H1. subst h1. rewrite E1. auto.
Qed.

(* ================================================================== *)
(** * The resolution loop on two hosts *)

Lemma canonical_str_run (p : Path) (h : Host) :
  fst (canonical_str p h)
  = match fst (resolve false p h) with
    | Ok resolved => Ok (str_of_path resolved)
    | Raise e => Raise e
    end.
Proof.
  unfold canonical_str. rewrite bind_run.
  destruct (resolve false p h) as [[resolved|e] h']; reflexivity.
Qed.

(** [os.readlink] either refuses the path, on any host, or gives the
    answer of the host. *)
Lemma os_readlink_cases (path : list str) :
  (exists e, (e = UnicodeEncodeError \/ e = ValueError)
             /\ forall h, os_readlink path h = (Raise e, h))
  \/ (forall h, os_readlink path h = (Ok (host_readlink h path), h)).
Proof.
  unfold os_readlink.
  destruct (negb (forallb (forallb fs_encodable) path)).
  - left. exists UnicodeEncodeError. split; [left; reflexivity|reflexivity].
  - destruct (existsb (existsb (Z.eqb 0)) path).
    + left. exists ValueError. split; [right; reflexivity|reflexivity].
    + right. reflexivity.
Qed.

(** Two hosts, each with its mode, on which every path gets the same
    answer: the loop cannot tell them apart. *)
Lemma walk_sim (s1 s2 : bool) (h1 h2 : Host) again1 again2 :
  (forall p, answer s1 (host_readlink h1 p) = answer s2 (host_readlink h2 p)) ->
  (forall seen path rest, readonly (again1 seen path rest)) ->
  (forall seen path rest, readonly (again2 seen path rest)) ->
  (forall seen path rest,
      fst (again1 seen path rest h1) = fst (again2 seen path rest h2)) ->
  forall names path seen,
    fst (walk again1 s1 names path seen h1)
    = fst (walk again2 s2 names path seen h2).
Proof.
  intros Hans Hro1 Hro2 Hsame names.
  induction names as [|n names IH]; intros path seen; cbn [walk].
  - reflexivity.
  - destruct (is_component n); cbn [negb]; [|apply IH].
    destruct (str_eqb n (lit "..")); [apply IH|].
    destruct (seen_get seen (path ++ [n])) as [[cached|]|].
    + apply IH.
    + reflexivity.
    + rewrite !bind_run.
      destruct (os_readlink_cases (path ++ [n])) as [(e & _ & He)|Hok].
      { rewrite !He. reflexivity. }
      rewrite !Hok. specialize (Hans (path ++ [n])).
      destruct (host_readlink h1 (path ++ [n])) as [t1| |e1];
        destruct (host_readlink h2 (path ++ [n])) as [t2| |e2];
        destruct s1; destruct s2; simpl in Hans;
        try discriminate Hans; try apply IH; try reflexivity;
        try (injection Hans as ->; reflexivity).
      all: injection Hans as ->; rewrite !bind_run;
        specialize (Hsame (seen_set seen (path ++ [n]) None) path t2);
        pose proof (Hro1 (seen_set seen (path ++ [n]) None) path t2 h1) as R1;
        pose proof (Hro2 (seen_set seen (path ++ [n]) None) path t2 h2) as R2;
        destruct (again1 (seen_set seen (path ++ [n]) None) path t2 h1)
          as [[ps1|x1] h1'];
        destruct (again2 (seen_set seen (path ++ [n]) None) path t2 h2)
          as [[ps2|x2] h2'];
        simpl in Hsame, R1, R2; subst h1' h2';
        try discriminate Hsame;
        [apply Ok_inj in Hsame; subst ps2; apply IH|exact Hsame].
Qed.

Lemma _resolve_sim (s1 s2 : bool) (h1 h2 : Host) :
  (forall p, answer s1 (host_readlink h1 p) = answer s2 (host_readlink h2 p)) ->
  forall depth seen path rest,
    fst (_resolve depth s1 seen path rest h1)
    = fst (_resolve depth s2 seen path rest h2).
Proof.
  intros Hans depth.
  induction depth as [|depth IH]; intros seen path rest; simpl.
  - reflexivity.
  - apply walk_sim; auto using _resolve_readonly.
Qed.

Lemma resolve_sim (s1 s2 : bool) (h1 h2 : Host) (p : Path) :
  host_cwd h1 = host_cwd h2 -> host_stack h1 = host_stack h2 ->
  (forall q, answer s1 (host_readlink h1 q) = answer s2 (host_readlink h2 q)) ->
  fst (resolve s1 p h1) = fst (resolve s2 p h2).
Proof.
  intros Hcwd Hstack Hans. unfold resolve. rewrite !bind_run.
  assert (Hbase : forall h,
             (if is_absolute p then ret [] else os_getcwd) h
             = (match (if is_absolute p then Cwd [] else host_cwd h) with
                | Cwd parts => Ok parts
                | NoCwd e => Raise (OSError e)
                end, h)).
  { intros h. destruct (is_absolute p); [reflexivity|].
    unfold os_getcwd. rewrite bind_run. unfold gets.
    destruct (host_cwd h); reflexivity. }
  rewrite !Hbase, Hcwd.
  destruct (if is_absolute p then Cwd [] else host_cwd h2) as [base|e];
    [|reflexivity].
  rewrite !bind_run. unfold gets. cbv beta iota. rewrite Hstack, !bind_run.
  pose proof (@_resolve_sim s1 s2 h1 h2 Hans (host_stack h2) [] base
                            (str_of_path p)) as H.
  destruct (_resolve (host_stack h2) s1 [] base (str_of_path p) h1)
    as [[ps1|e1] h1'];
    destruct (_resolve (host_stack h2) s2 [] base (str_of_path p) h2)
      as [[ps2|e2] h2']; simpl in H; try discriminate H.
  - apply Ok_inj in H. subst ps2. reflexivity.
  - simpl. congruence.
Qed.

(** Non-strict resolution is strict resolution on the host where every
    name that cannot be read is a directory. *)
Lemma resolve_forgiving (h : Host) (p : Path) :
  fst (resolve false p h) = fst (resolve true p (forgiving h)).
Proof.
  apply resolve_sim; try reflexivity.
  intros q. simpl. destruct (host_readlink h q); reflexivity.
Qed.

Lemma resolve_mkdirs (dirs : list (list str)) (h : Host) (p : Path) :
  fst (resolve false p (mkdirs dirs h)) = fst (resolve false p h).
Proof.
  apply resolve_sim; try reflexivity.
  intros q. simpl. destruct (host_readlink h q) as [t| |e]; try reflexivity.
  destruct (existsb (path_eqb q) dirs); reflexivity.
Qed.

Lemma get_socket_path_resolve (root p : Path) (h1 h2 : Host) :
  fst (resolve false p h1) = fst (resolve false p h2) ->
  fst (get_socket_path root p h1) = fst (get_socket_path root p h2).
Proof.
  intros H. rewrite !get_socket_path_run, !canonical_str_run, H. reflexivity.
Qed.

(* ================================================================== *)
(** * What the resolver can raise *)

Lemma raises_only_ret {S A} (allowed : exn -> Prop) (a : A) :
  raises_only allowed (@ret S A a).
Proof. intros h e H. discriminate. Qed.

Lemma raises_only_gets {S A} (allowed : exn -> Prop) (f : S -> A) :
  raises_only allowed (gets f).
Proof. intros h e H. discriminate. Qed.

Lemma raises_only_raise {S A} (allowed : exn -> Prop) (e : exn) :
  allowed e -> raises_only allowed (@raise S A e).
Proof. intros He h e' H. simpl in H. congruence. Qed.

Lemma raises_only_bind {S A B} (allowed : exn -> Prop)
      (m : M S A) (k : A -> M S B) :
  raises_only allowed m -> (forall a, raises_only allowed (k a)) ->
  raises_only allowed (bind m k).
Proof.
  intros Hm Hk h e. rewrite bind_run.
  specialize (Hm h). destruct (m h) as [[a|e'] h']; simpl in *.
  - apply Hk.
  - intros H. apply Hm. congruence.
Qed.

Lemma os_readlink_raises path : raises_only resolution_error (os_readlink path).
Proof.
  intros h e. destruct (os_readlink_cases path) as [(e' & He' & Hr)|Hok].
  - rewrite Hr. simpl. intros H. injection H as <-.
    unfold resolution_error. tauto.
  - rewrite Hok. discriminate.
Qed.

Lemma walk_raises again :
  (forall seen path rest, raises_only resolution_error (again seen path rest)) ->
  forall names path seen,
    raises_only resolution_error (walk again false names path seen).
Proof.
  intros Hagain names.
  induction names as [|n names IH]; intros path seen; cbn [walk].
  - apply raises_only_ret.
  - destruct (is_component n); cbn [negb]; [|apply IH].
    destruct (str_eqb n (lit "..")); [apply IH|].
    destruct (seen_get seen (path ++ [n])) as [[cached|]|].
    + apply IH.
    + apply raises_only_raise. left. reflexivity.
    + apply raises_only_bind; [apply os_readlink_raises|].
      intros [target| |e].
      * apply raises_only_bind; [apply Hagain|]. intros ps. apply IH.
      * apply IH.
      * apply IH.
Qed.

Lemma _resolve_raises depth :
  forall seen path rest,
    raises_only resolution_error (_resolve depth false seen path rest).
Proof.
  induction depth as [|depth IH]; intros seen path rest; simpl.
  - apply raises_only_raise. right. left. reflexivity.
  - apply walk_raises. exact IH.
Qed.

(** The one error of the operating system that non-strict resolution lets
    through is that of [os.getcwd], which a relative path needs. *)
Lemma resolve_raises (p : Path) (h : Host) (e : exn) :
  fst (resolve false p h) = Raise e ->
  resolution_error e
  \/ exists n, e = OSError n /\ is_absolute p = false /\ host_cwd h = NoCwd n.
Proof.
  unfold resolve. rewrite bind_run.
  destruct (is_absolute p) eqn:Habs.
  - cbn [ret]. rewrite !bind_run. unfold gets at 1. rewrite bind_run.
    pose proof (@_resolve_raises (host_stack h) [] [] (str_of_path p) h) as Hr.
    destruct (_resolve (host_stack h) false [] [] (str_of_path p) h)
      as [[ps|e'] h']; simpl in *; [discriminate|].
    intros H. left. apply Hr. congruence.
  - unfold os_getcwd. rewrite !bind_run. unfold gets at 1.
    destruct (host_cwd h) as [base|n] eqn:Hcwd.
    + cbn [ret]. rewrite !bind_run. unfold gets at 1. rewrite bind_run.
      pose proof (@_resolve_raises (host_stack h) [] base (str_of_path p) h)
        as Hr.
      destruct (_resolve (host_stack h) false [] base (str_of_path p) h)
        as [[ps|e'] h']; simpl in *; [discriminate|].
      intros H. left. apply Hr. congruence.
    + simpl. intros H. injection H as <-. right. exists n. auto.
Qed.

Lemma get_socket_path_raises (root p : Path) (h : Host) (e : exn) :
  fst (get_socket_path root p h) = Raise e ->
  resolution_error e
  \/ exists n, e = OSError n /\ is_absolute p = false /\ host_cwd h = NoCwd n.
Proof.
  rewrite get_socket_path_run, canonical_str_run.
  destruct (fst (resolve false p h)) as [resolved|e'] eqn:Hr.
  - destruct (encode_utf8 (str_of_path resolved)) as [b|e'] eqn:Eb;
      [discriminate|].
    intros H. left. unfold resolution_error.
    rewrite (@encode_utf8_raise _ _ Eb) in H. injection H as <-. tauto.
  - intros H. injection H as <-. apply (@resolve_raises p h e' Hr).
Qed.

(* ================================================================== *)
(** * An identifier whose directory does not exist *)

(** C5, as stated, fails: the way to a directory that does not exist can
    go through a symbolic link that points to itself, and then the call
    raises RuntimeError. *)
Lemma get_socket_path_fails_on_symlink_loop :
  let h := mkHost (Cwd [])
             (fun p => if path_eqb p [lit "loop"] then Target (lit "loop")
                       else Failed ENOENT) 100 in
  fst (get_socket_path (parse_parts (lit "/tmp"))
                       (parse_parts (lit "/loop/logs")) h)
  = Raise RuntimeError.
Proof. vm_compute. reflexivity. Qed.

(** C5, amended.  For every identifier, what does not exist never makes
    [get_socket_path] fail.  Canonicalization follows the links that are
    there and leaves every name that cannot be read (it is missing, below
    a file, out of reach) as given: it resolves the identifier as strict
    resolution does on the host where all these names are directories.
    So the outcome is the same after any of them are created as
    directories, and no error of the file system is raised; the one error
    of the operating system that can come out is that of [os.getcwd], when
    the identifier is relative and the working directory itself is gone.
    (The call can still fail for reasons that creating directories does
    not change: a loop of symbolic links, links nested too deep, a name
    that cannot be encoded or that holds a NUL.) *)
Theorem get_socket_path_missing_directory
        (h : Host) (root identifier : Path) (dirs : list (list str)) :
  fst (resolve false identifier h) = fst (resolve true identifier (forgiving h))
  /\ fst (get_socket_path root identifier (mkdirs dirs h))
     = fst (get_socket_path root identifier h)
  /\ match fst (get_socket_path root identifier h) with
     | Raise (OSError e) =>
         is_absolute identifier = false /\ host_cwd h = NoCwd e
     | _ => True
     end.
Proof.
  split; [apply resolve_forgiving|]. split.
  - apply get_socket_path_resolve, resolve_mkdirs.
  - destruct (fst (get_socket_path root identifier h)) as [p|e] eqn:E;
      [exact I|].
    destruct e; try exact I.
    destruct (@get_socket_path_raises root identifier h _ E)
      as [[H|[H|[H|H]]]|(n & H & Habs & Hcwd)]; try discriminate H.
    injection H as ->. split; assumption.
Qed.

(** On [linked_host] nothing exists below [/srv/real]: strict resolution
    of [/srv/link/logs/pyre] raises ENOENT, non-strict resolution follows
    the link and keeps the two names, and [mkdir -p /srv/real/logs/pyre]
    changes nothing; the digest is the one of [hashlib]. *)
Lemma get_socket_path_missing_directory_witness :
  let identifier := parse_parts (lit "/srv/link/logs/pyre") in
  let created := [[lit "srv"; lit "real"; lit "logs"];
                  [lit "srv"; lit "real"; lit "logs"; lit "pyre"]] in
  fst (resolve true identifier linked_host) = Raise (OSError ENOENT)
  /\ fst (resolve false identifier linked_host)
     = Ok (parse_parts (lit "/srv/real/logs/pyre"))
  /\ fst (resolve true identifier (mkdirs created linked_host))
     = Ok (parse_parts (lit "/srv/real/logs/pyre"))
  /\ fst (get_socket_path (parse_parts (lit "/tmp")) identifier linked_host)
     = Ok (parse_parts
             (lit "/tmp/pyre_server_97343ef30b2e1547cbac07fa68d52463.sock"))
  /\ fst (get_socket_path (parse_parts (lit "/tmp")) identifier
                          (mkdirs created linked_host))
     = Ok (parse_parts
             (lit "/tmp/pyre_server_97343ef30b2e1547cbac07fa68d52463.sock")).
Proof.
  intros identifier created.
  assert (E : fst (get_socket_path (parse_parts (lit "/tmp")) identifier
                                   linked_host)
              = Ok (parse_parts
                (lit "/tmp/pyre_server_97343ef30b2e1547cbac07fa68d52463.sock")))
    by (vm_compute; reflexivity).
  destruct (get_socket_path_missing_directory linked_host
              (parse_parts (lit "/tmp")) identifier created) as (_ & H2 & _).
  split; [vm_compute; reflexivity|]. split; [vm_compute; reflexivity|].
  split; [vm_compute; reflexivity|]. split; [exact E|].
  rewrite H2. exact E.
Defined.

(* ================================================================== *)
(** * Running [connect] *)

Ltac run :=
  cbv beta iota zeta delta
    [IOBase_exit IOBase_enter buffered_close buffered_flush _flush_unlocked
     SocketIO_close SocketIO_write SocketIO_read BufferedWriter_write
     BufferedReader_read1 socket__decref_socketios socket_close
     socket__real_close socket_exit socket_socket socket_connect
     sys_socket sys_connect sys_close sys_send sys_recv
     check_open try_finally with_ bind gets modify ret raise lift log
     set_raw raw_of
     set_inbox set_syscalls set_fd set_sock_closed set_sock_io_refs
     set_in_raw set_out_raw set_write_buf set_pending_bytes set_dec_buffer
     set_dec_pendingcr set_decoded_chars
     oracle inbox syscalls fd sock_closed sock_io_refs in_raw out_raw
     write_buf pending_bytes dec_buffer dec_pendingcr decoded_chars
     fst snd Nat.sub Nat.add Nat.leb Nat.ltb refs_of].

Lemma with_run {R A} (enter : M Conn R) (exit : R -> M Conn unit)
      (body : R -> M Conn A) (w : Conn) :
  with_ enter exit body w
  = match enter w with
    | (Ok x, w') => after (body x w') (exit x)
    | (Raise e, w') => (Raise e, w')
    end.
Proof.
  unfold with_, bind, try_finally, after.
  destruct (enter w) as [[x|e] w']; [|reflexivity].
  destruct (body x w') as [r w1]. reflexivity.
Qed.

Lemma try_finally_run {A} (body : M Conn A) (cleanup : M Conn unit) w :
  try_finally body cleanup w = after (body w) cleanup.
Proof.
  unfold try_finally, after. destruct (body w) as [r w1]. reflexivity.
Qed.

(** With the socket created and connected, [connect] is the block run on
    the entered connection, followed by the three exits. *)
Lemma connect_run {T} (p : Path) (body : BinaryIO * BinaryIO -> M Conn T)
      (o : Oracle) (peer : list bytes) :
  socket_errno o = None -> connect_errno o = None ->
  connect p body (fresh o peer)
  = leave (body (Input, Output) (entered o peer (str_of_path p))).
Proof.
  intros Hs Hc. destruct o as [se ce sn rv cl]. simpl in Hs, Hc. subst.
  unfold connect.
  rewrite with_run.
  assert (E1 : socket_socket AF_UNIX SOCK_STREAM
                 (fresh (mkOracle None None sn rv cl) peer)
               = (Ok ClientSocket,
                  mkConn (mkOracle None None sn rv cl) peer [SysSocket None]
                         Open false 0 Absent Absent [] [] [] false []))
    by reflexivity.
  rewrite E1, bind_run.
  assert (E2 : socket_connect ClientSocket (str_of_path p)
                 (mkConn (mkOracle None None sn rv cl) peer [SysSocket None]
                         Open false 0 Absent Absent [] [] [] false [])
               = (Ok tt,
                  mkConn (mkOracle None None sn rv cl) peer
                         [SysSocket None; SysConnect (str_of_path p) None]
                         Open false 0 Absent Absent [] [] [] false []))
    by reflexivity.
  rewrite E2, with_run.
  assert (E3 : (s <- socket_makefile ClientSocket (lit "rb") ;; IOBase_enter s)
                 (mkConn (mkOracle None None sn rv cl) peer
                         [SysSocket None; SysConnect (str_of_path p) None]
                         Open false 0 Absent Absent [] [] [] false [])
               = (Ok Input,
                  mkConn (mkOracle None None sn rv cl) peer
                         [SysSocket None; SysConnect (str_of_path p) None]
                         Open false 1 Open Absent [] [] [] false []))
    by reflexivity.
  rewrite E3, with_run.
  assert (E4 : (s <- socket_makefile ClientSocket (lit "wb") ;; IOBase_enter s)
                 (mkConn (mkOracle None None sn rv cl) peer
                         [SysSocket None; SysConnect (str_of_path p) None]
                         Open false 1 Open Absent [] [] [] false [])
               = (Ok Output,
                  entered (mkOracle None None sn rv cl) peer (str_of_path p)))
    by reflexivity.
  rewrite E4. reflexivity.
Qed.

Lemma entered_in_scope o peer address :
  in_scope o address (entered o peer address).
Proof.
  unfold in_scope, entered. simpl.
  repeat split; try discriminate.
  exists []. split; reflexivity.
Qed.

(* ================================================================== *)
(** * A small program logic for [M Conn] *)

Lemma hoare_ret {A} (P : Conn -> Prop) (a : A) Q :
  (forall w, P w -> Q (Ok a) w) -> hoare P (ret a) Q.
Proof. intros H w Hw. apply H. exact Hw. Qed.

Lemma hoare_raise {A} (P : Conn -> Prop) (e : exn) (Q : result A -> Conn -> Prop) :
  (forall w, P w -> Q (Raise e) w) -> hoare P (raise e) Q.
Proof. intros H w Hw. apply H. exact Hw. Qed.

Lemma hoare_lift {A} (P : Conn -> Prop) (r : result A) Q :
  (forall w, P w -> Q r w) -> hoare P (lift r) Q.
Proof. intros H w Hw. apply H. exact Hw. Qed.

Lemma hoare_gets {A} (P : Conn -> Prop) (f : Conn -> A) Q :
  (forall w, P w -> Q (Ok (f w)) w) -> hoare P (gets f) Q.
Proof. intros H w Hw. apply H. exact Hw. Qed.

Lemma hoare_modify (P : Conn -> Prop) (f : Conn -> Conn) Q :
  (forall w, P w -> Q (Ok tt) (f w)) -> hoare P (modify f) Q.
Proof. intros H w Hw. apply H. exact Hw. Qed.

Lemma hoare_bind {A B} (P : Conn -> Prop) (m : M Conn A) (k : A -> M Conn B)
      (R : result A -> Conn -> Prop) (Q : result B -> Conn -> Prop) :
  hoare P m R ->
  (forall a, hoare (R (Ok a)) (k a) Q) ->
  (forall e w, R (Raise e) w -> Q (Raise e) w) ->
  hoare P (bind m k) Q.
Proof.
  intros Hm Hk He w Hw. specialize (Hm w Hw). rewrite bind_run.
  destruct (m w) as [[a|e] w']; simpl in Hm.
  - apply Hk. exact Hm.
  - apply He. exact Hm.
Qed.

Lemma hoare_conseq {A} (P P' : Conn -> Prop) (m : M Conn A)
      (Q Q' : result A -> Conn -> Prop) :
  hoare P' m Q' -> (forall w, P w -> P' w) ->
  (forall r w, Q' r w -> Q r w) -> hoare P m Q.
Proof. intros H HP HQ w Hw. apply HQ, H, HP, Hw. Qed.

Lemma keeps_ret {A} P (a : A) : keeps P (ret a).
Proof. intros w Hw. exact Hw. Qed.

Lemma keeps_raise {A} P (e : exn) : keeps P (@raise Conn A e).
Proof. intros w Hw. exact Hw. Qed.

Lemma keeps_lift {A} P (r : result A) : keeps P (lift r).
Proof. intros w Hw. exact Hw. Qed.

Lemma keeps_gets {A} P (f : Conn -> A) : keeps P (gets f).
Proof. intros w Hw. exact Hw. Qed.

Lemma keeps_modify (P : Conn -> Prop) (f : Conn -> Conn) :
  (forall w, P w -> P (f w)) -> keeps P (modify f).
Proof. intros H w Hw. apply H. exact Hw. Qed.

Lemma keeps_bind {A B} P (m : M Conn A) (k : A -> M Conn B) :
  keeps P m -> (forall a, keeps P (k a)) -> keeps P (bind m k).
Proof.
  intros Hm Hk. eapply hoare_bind; [exact Hm|exact Hk|auto].
Qed.

Lemma keeps_try_finally {A} P (body : M Conn A) (cleanup : M Conn unit) :
  keeps P body -> keeps P cleanup -> keeps P (try_finally body cleanup).
Proof.
  intros Hb Hc w Hw. rewrite try_finally_run. unfold after.
  specialize (Hb w Hw). specialize (Hc (snd (body w)) Hb).
  destruct (cleanup (snd (body w))) as [[u|e] w']; exact Hc.
Qed.

Lemma keeps_if {A} P (b : bool) (m1 m2 : M Conn A) :
  keeps P m1 -> keeps P m2 -> keeps P (if b then m1 else m2).
Proof. destruct b; auto. Qed.

(* ================================================================== *)
(** * What the streams' operations keep *)

Lemma in_scope_log o address w c :
  in_scope o address w -> is_io c = true ->
  in_scope o address (set_syscalls (syscalls w ++ [c]) w).
Proof.
  intros (Hor & Hfd & Hsock & (calls & Hcalls & Hio) & Hin & Hout & Hrefs) Hc.
  destruct w as [orc ib sc f scl refs ir orw wb pb db dcr dch].
  simpl in *. subst.
  unfold in_scope. simpl.
  repeat split; try assumption.
  exists (calls ++ [c]). split.
  - reflexivity.
  - rewrite forallb_app, Hio. simpl. rewrite Hc. reflexivity.
Qed.

Lemma in_scope_frame o address w w' :
  in_scope o address w ->
  oracle w' = oracle w ->
  fd w' = fd w -> sock_closed w' = sock_closed w ->
  syscalls w' = syscalls w -> in_raw w' = in_raw w ->
  out_raw w' = out_raw w -> sock_io_refs w' = sock_io_refs w ->
  in_scope o address w'.
Proof.
  unfold in_scope. intros H -> -> -> -> -> -> ->. exact H.
Qed.

Ltac frame := eapply in_scope_frame; [eassumption|reflexivity..].

Lemma keeps_check_open o a s : keeps (in_scope o a) (check_open s).
Proof.
  intros w Hw. unfold check_open. rewrite bind_run. unfold gets.
  destruct (raw_of s w); exact Hw.
Qed.

Lemma keeps_sys_send o a data : keeps (in_scope o a) (sys_send data).
Proof.
  intros w Hw. pose proof Hw as (_ & Hfd & _).
  destruct w as [orc ib sc f scl refs ir orw wb pb db dcr dch].
  simpl in Hfd. subst f. run.
  destruct (send_errno orc (count is_send sc)) as [e|] eqn:E; run;
    [exact (@in_scope_log o a _ (SysSend data (Some e)) Hw eq_refl)
    |exact (@in_scope_log o a _ (SysSend data None) Hw eq_refl)].
Qed.

Lemma keeps_sys_recv o a size : keeps (in_scope o a) (sys_recv size).
Proof.
  intros w Hw. pose proof Hw as (_ & Hfd & _).
  destruct w as [orc ib sc f scl refs ir orw wb pb db dcr dch].
  simpl in Hfd. subst f. run.
  destruct (recv_errno orc (count is_recv sc)) as [e|] eqn:E; run.
  - exact (@in_scope_log o a _ (SysRecv size (Some e)) Hw eq_refl).
  - eapply in_scope_frame;
      [exact (@in_scope_log o a _ (SysRecv size None) Hw eq_refl)
      |reflexivity..].
Qed.

Lemma keeps_SocketIO_write o a s data : keeps (in_scope o a) (SocketIO_write s data).
Proof.
  unfold SocketIO_write. apply keeps_bind; [apply keeps_check_open|].
  intros _. apply keeps_sys_send.
Qed.

Lemma keeps_SocketIO_read o a s size : keeps (in_scope o a) (SocketIO_read s size).
Proof.
  unfold SocketIO_read. apply keeps_bind; [apply keeps_check_open|].
  intros _. apply keeps_sys_recv.
Qed.

Lemma keeps_set_write_buf o a v : keeps (in_scope o a) (modify (set_write_buf v)).
Proof. apply keeps_modify. intros w Hw. frame. Qed.

Lemma keeps_set_pending_bytes o a v : keeps (in_scope o a) (modify (set_pending_bytes v)).
Proof. apply keeps_modify. intros w Hw. frame. Qed.

Lemma keeps_set_dec_buffer o a v : keeps (in_scope o a) (modify (set_dec_buffer v)).
Proof. apply keeps_modify. intros w Hw. frame. Qed.

Lemma keeps_set_dec_pendingcr o a v : keeps (in_scope o a) (modify (set_dec_pendingcr v)).
Proof. apply keeps_modify. intros w Hw. frame. Qed.

Lemma keeps_set_decoded_chars o a v : keeps (in_scope o a) (modify (set_decoded_chars v)).
Proof. apply keeps_modify. intros w Hw. frame. Qed.

Lemma keeps__flush_unlocked o a : keeps (in_scope o a) _flush_unlocked.
Proof.
  unfold _flush_unlocked. apply keeps_bind; [apply keeps_gets|].
  intros [|b buf]; [apply keeps_ret|].
  apply keeps_bind; [apply keeps_SocketIO_write|].
  intros _. apply keeps_set_write_buf.
Qed.

Lemma keeps_buffered_flush o a s : keeps (in_scope o a) (buffered_flush s).
Proof.
  unfold buffered_flush. apply keeps_bind; [apply keeps_check_open|].
  intros _. destruct s; [apply keeps_ret|apply keeps__flush_unlocked].
Qed.

Lemma keeps_SocketIO_close o a s : keeps (in_scope o a) (SocketIO_close s).
Proof.
  intros w (Hor & Hfd & Hsock & Hcalls & Hin & Hout & Hrefs).
  destruct w as [orc ib sc f scl refs ir orw wb pb db dcr dch].
  simpl in *. subst. unfold in_scope.
  destruct s; run.
  - destruct ir; [contradiction| |]; run; [destruct orw; run|];
      repeat split; auto; discriminate.
  - destruct orw; [contradiction| |]; run; [destruct ir; run|];
      repeat split; auto; try discriminate; try lia.
Qed.

Lemma keeps_buffered_close o a s : keeps (in_scope o a) (buffered_close s).
Proof.
  unfold buffered_close. apply keeps_bind; [apply keeps_gets|].
  intros [| |]; try apply keeps_ret.
  apply keeps_try_finally; [apply keeps_buffered_flush|apply keeps_SocketIO_close].
Qed.

Lemma keeps_BufferedWriter_write o a data :
  keeps (in_scope o a) (BufferedWriter_write data).
Proof.
  unfold BufferedWriter_write. apply keeps_bind; [apply keeps_check_open|].
  intros _. apply keeps_bind; [apply keeps_gets|]. intros buf.
  apply keeps_if.
  - apply keeps_bind; [apply keeps_set_write_buf|]. intros _. apply keeps_ret.
  - apply keeps_bind; [apply keeps__flush_unlocked|]. intros _.
    apply keeps_bind; [|intros _; apply keeps_ret].
    apply keeps_if; [|apply keeps_set_write_buf].
    apply keeps_bind; [apply keeps_SocketIO_write|]. intros _. apply keeps_ret.
Qed.

Lemma keeps_BufferedReader_read1 o a size :
  keeps (in_scope o a) (BufferedReader_read1 size).
Proof.
  unfold BufferedReader_read1. apply keeps_bind; [apply keeps_check_open|].
  intros _. destruct size; [apply keeps_ret|apply keeps_SocketIO_read].
Qed.

Lemma keeps_run_bin_op o a streams op : keeps (in_scope o a) (run_bin_op streams op).
Proof.
  destruct op; simpl.
  - apply keeps_bind; [apply keeps_BufferedReader_read1|]. intros b. apply keeps_ret.
  - apply keeps_bind; [apply keeps_BufferedWriter_write|]. intros n. apply keeps_ret.
  - apply keeps_bind; [apply keeps_buffered_flush|]. intros _. apply keeps_ret.
  - apply keeps_bind; [apply keeps_buffered_close|]. intros _. apply keeps_ret.
  - apply keeps_bind; [apply keeps_buffered_close|]. intros _. apply keeps_ret.
Qed.

Lemma keeps__writeflush o a : keeps (in_scope o a) _writeflush.
Proof.
  unfold _writeflush. apply keeps_bind; [apply keeps_gets|].
  intros [|b pending]; [apply keeps_ret|].
  apply keeps_bind; [apply keeps_set_pending_bytes|]. intros _.
  apply keeps_bind; [apply keeps_BufferedWriter_write|]. intros _. apply keeps_ret.
Qed.

Lemma keeps_text_write o a t s : keeps (in_scope o a) (text_write t s).
Proof.
  unfold text_write. apply keeps_bind; [apply keeps_check_open|]. intros _.
  destruct (buffer t); [apply keeps_raise|].
  apply keeps_bind; [apply keeps_lift|]. intros b.
  apply keeps_bind; [apply keeps_gets|]. intros pending.
  apply keeps_bind.
  { apply keeps_if; [|apply keeps_set_pending_bytes].
    apply keeps_bind; [apply keeps__writeflush|]. intros _.
    apply keeps_set_pending_bytes. }
  intros _. apply keeps_bind; [apply keeps_gets|]. intros pending'.
  apply keeps_bind; [apply keeps_if; [apply keeps__writeflush|apply keeps_ret]|].
  intros _.
  apply keeps_bind; [apply keeps_if; [apply keeps_buffered_flush|apply keeps_ret]|].
  intros _. apply keeps_ret.
Qed.

Lemma keeps_text_flush o a t : keeps (in_scope o a) (text_flush t).
Proof.
  unfold text_flush. apply keeps_bind; [apply keeps_check_open|]. intros _.
  apply keeps_bind; [|intros _; apply keeps_buffered_flush].
  destruct (buffer t); [apply keeps_ret|apply keeps__writeflush].
Qed.

Lemma keeps_text_close o a t : keeps (in_scope o a) (text_close t).
Proof.
  unfold text_close, text_closed. apply keeps_bind.
  { apply keeps_bind; [apply keeps_gets|]. intros [| |]; apply keeps_ret. }
  intros [|]; [apply keeps_ret|].
  apply keeps_try_finally; [apply keeps_text_flush|apply keeps_buffered_close].
Qed.

Lemma keeps_decoder_decode o a t input final :
  keeps (in_scope o a) (decoder_decode t input final).
Proof.
  unfold decoder_decode. apply keeps_bind; [apply keeps_gets|]. intros held.
  destruct (codec_decode (encoding t) (held ++ input) final) as [[text rest]|];
    [|apply keeps_raise].
  apply keeps_bind; [apply keeps_set_dec_buffer|]. intros _.
  apply keeps_bind; [apply keeps_gets|]. intros cr.
  apply keeps_bind; [apply keeps_set_dec_pendingcr|]. intros _. apply keeps_ret.
Qed.

Lemma keeps__read_chunk o a t hint : keeps (in_scope o a) (_read_chunk t hint).
Proof.
  unfold _read_chunk. apply keeps_bind; [apply keeps_BufferedReader_read1|].
  intros chunk. apply keeps_bind; [apply keeps_decoder_decode|]. intros decoded.
  apply keeps_bind; [apply keeps_set_decoded_chars|]. intros _. apply keeps_ret.
Qed.

Lemma keeps__get_decoded_chars o a n : keeps (in_scope o a) (_get_decoded_chars n).
Proof.
  unfold _get_decoded_chars. apply keeps_bind; [apply keeps_gets|]. intros chars.
  apply keeps_bind; [apply keeps_set_decoded_chars|]. intros _. apply keeps_ret.
Qed.

Lemma keeps_read_loop o a t rounds :
  forall size result, keeps (in_scope o a) (read_loop t rounds size result).
Proof.
  induction rounds as [|rounds IH]; intros size result; simpl.
  - apply keeps_ret.
  - apply keeps_if; [|apply keeps_ret].
    apply keeps_bind; [apply keeps__read_chunk|]. intros more.
    apply keeps_bind; [apply keeps__get_decoded_chars|]. intros chars.
    destruct more; [apply IH|apply keeps_ret].
Qed.

Lemma keeps_text_read o a t size : keeps (in_scope o a) (text_read t size).
Proof.
  unfold text_read. apply keeps_bind; [apply keeps_check_open|]. intros _.
  destruct (buffer t); [|apply keeps_raise].
  apply keeps_bind; [apply keeps__get_decoded_chars|]. intros result.
  apply keeps_bind; [apply keeps_gets|]. intros rounds. apply keeps_read_loop.
Qed.

Lemma keeps_run_text_op o a streams op : keeps (in_scope o a) (run_text_op streams op).
Proof.
  destruct op; simpl.
  - apply keeps_bind; [apply keeps_text_read|]. intros s. apply keeps_ret.
  - apply keeps_bind; [apply keeps_text_write|]. intros n. apply keeps_ret.
  - apply keeps_bind; [apply keeps_text_flush|]. intros _. apply keeps_ret.
  - apply keeps_bind; [apply keeps_text_close|]. intros _. apply keeps_ret.
  - apply keeps_bind; [apply keeps_text_close|]. intros _. apply keeps_ret.
Qed.

Lemma keeps_run_script {Op} P (run : Op -> M Conn value) :
  (forall op, keeps P (run op)) ->
  forall script, keeps P (run_script run script).
Proof.
  intros Hrun script.
  induction script as [|[op caught] script IH]; simpl.
  - apply keeps_ret.
  - intros w Hw. specialize (Hrun op w Hw).
    destruct (run op w) as [[v|e] w']; simpl in Hrun.
    + apply (@keeps_bind _ _ P (run_script run script)
                         (fun vs => ret (Ok v :: vs)) IH
                         (fun vs => @keeps_ret _ P (Ok v :: vs)) w' Hrun).
    + destruct caught; [|exact Hrun].
      apply (@keeps_bind _ _ P (run_script run script)
                         (fun vs => ret (Raise e :: vs)) IH
                         (fun vs => @keeps_ret _ P (Raise e :: vs)) w' Hrun).
Qed.

Lemma keeps_block {Op} P (run : Op -> M Conn value) script ending :
  (forall op, keeps P (run op)) -> keeps P (block run script ending).
Proof.
  intros Hrun. unfold block.
  apply keeps_bind; [apply keeps_run_script; exact Hrun|].
  intros vs. destruct ending; [apply keeps_raise|apply keeps_ret].
Qed.

(* ================================================================== *)
(** * Leaving the scope *)

Lemma snd_after {T} (x : result T * Conn) (cleanup : M Conn unit) :
  snd (after x cleanup) = snd (cleanup (snd x)).
Proof.
  unfold after. destruct (cleanup (snd x)) as [[u|e] w]; reflexivity.
Qed.

Lemma close_output_closes o a w :
  in_scope o a w -> out_raw (snd (buffered_close Output w)) = Closed.
Proof.
  intros (Hor & Hfd & Hsock & Hcalls & Hin & Hout & Hrefs).
  destruct w as [orc ib sc f scl refs ir orw wb pb db dcr dch].
  simpl in *. subst.
  destruct orw; [contradiction| |reflexivity].
  destruct wb as [|b wb]; [destruct ir; reflexivity|].
  run. destruct (send_errno o (count is_send sc)); run;
    destruct ir; reflexivity.
Qed.

Lemma close_input_closes o a w :
  in_scope o a w -> in_raw (snd (buffered_close Input w)) = Closed.
Proof.
  intros (Hor & Hfd & Hsock & Hcalls & Hin & Hout & Hrefs).
  destruct w as [orc ib sc f scl refs ir orw wb pb db dcr dch].
  simpl in *. subst.
  destruct ir; [contradiction| |reflexivity].
  destruct orw; reflexivity.
Qed.

Lemma close_input_keeps_output o a w :
  in_scope o a w -> out_raw (snd (buffered_close Input w)) = out_raw w.
Proof.
  intros (Hor & Hfd & Hsock & Hcalls & Hin & Hout & Hrefs).
  destruct w as [orc ib sc f scl refs ir orw wb pb db dcr dch].
  simpl in *. subst.
  destruct ir; [contradiction| |reflexivity].
  destruct orw; reflexivity.
Qed.

Lemma socket_exit_releases o a w :
  in_scope o a w -> in_raw w = Closed -> out_raw w = Closed ->
  released o a (snd (socket_exit ClientSocket w)).
Proof.
  intros (Hor & Hfd & Hsock & (calls & Hcalls & Hio) & _ & _ & Hrefs) Hin Hout.
  destruct w as [orc ib sc f scl refs ir orw wb pb db dcr dch].
  simpl in *. subst. unfold released. run.
  destruct (close_errno o) as [e|] eqn:E; run;
    [destruct (e =? ECONNRESET); run|];
    simpl; rewrite ?E; repeat split; exists calls; split; auto.
Qed.

(** From anywhere inside the scope, the three exits close the two streams
    and then the socket, whatever the block produced and whatever fails on
    the way. *)
Lemma leave_releases {T} o a (r : result T) (w : Conn) :
  in_scope o a w -> released o a (snd (leave (r, w))).
Proof.
  intros Hw. unfold leave. rewrite !snd_after. simpl snd.
  unfold IOBase_exit.
  pose proof (@keeps_buffered_close o a Output w Hw) as H1. simpl in H1.
  pose proof (close_output_closes Hw) as O1.
  pose proof (@keeps_buffered_close o a Input _ H1) as H2. simpl in H2.
  pose proof (close_input_closes H1) as I2.
  pose proof (close_input_keeps_output H1) as O2. rewrite O1 in O2.
  apply socket_exit_releases; assumption.
Qed.

(** With the socket created and connected, [connect_in_text_mode] is the
    block run on the two wrappers, followed by the three exits of
    [connect]: nothing closes or flushes the wrappers themselves. *)
Lemma connect_in_text_mode_run {T} (p : Path) (body : TextIO * TextIO -> M Conn T)
      (o : Oracle) (peer : list bytes) :
  socket_errno o = None -> connect_errno o = None ->
  connect_in_text_mode p body (fresh o peer)
  = leave (body (mkText Input (lit "utf-8") true,
                 mkText Output (lit "utf-8") true)
                (entered o peer (str_of_path p))).
Proof.
  intros Hs Hc. unfold connect_in_text_mode.
  rewrite (@connect_run _ p _ o peer Hs Hc). reflexivity.
Qed.

(* ================================================================== *)
(** * The life cycle of the connection *)

(** X1.  When [socket()] fails with errno [e], [connect] raises
    [OSError e]; the failed call is the only system call made (no connect,
    nothing to close) and the caller's block is not run. *)
Theorem connect_socket_failure {T} (p : Path)
        (body : BinaryIO * BinaryIO -> M Conn T)
        (o : Oracle) (peer : list bytes) (e : Z) :
  socket_errno o = Some e ->
  connect p body (fresh o peer)
  = (Raise (OSError e), set_syscalls [SysSocket (Some e)] (fresh o peer)).
Proof.
  intros Hs. destruct o as [se ce sn rv cl]. simpl in Hs. subst.
  reflexivity.
Qed.

Lemma connect_socket_failure_witness :
  socket_errno (mkOracle (Some 24) None (fun _ => None) (fun _ => None) None)
  = Some 24
  /\ connect (parse_parts (lit "/tmp/pyre_server_x.sock"))
             (fun _ => BufferedWriter_write (lit "ping"))
             (fresh (mkOracle (Some 24) None (fun _ => None) (fun _ => None)
                              None) [])
     = (Raise (OSError 24),
        set_syscalls [SysSocket (Some 24)]
          (fresh (mkOracle (Some 24) None (fun _ => None) (fun _ => None)
                           None) [])).
Proof.
  split; [reflexivity|].
  apply (@connect_socket_failure nat). reflexivity.
Defined.

(** X2.  When [connect()] fails with errno [e], the system calls are the
    socket, the failed connect to [str(socket_path)] and one close; no
    stream is made and the block is not run.  [connect] raises [OSError e],
    or the error of the close if that fails too. *)
Theorem connect_connect_failure {T} (p : Path)
        (body : BinaryIO * BinaryIO -> M Conn T)
        (o : Oracle) (peer : list bytes) (e : Z) :
  socket_errno o = None ->
  connect_errno o = Some e ->
  syscalls (snd (connect p body (fresh o peer)))
  = [SysSocket None; SysConnect (str_of_path p) (Some e);
     SysClose (close_errno o)]
  /\ fd (snd (connect p body (fresh o peer))) = Closed
  /\ in_raw (snd (connect p body (fresh o peer))) = Absent
  /\ out_raw (snd (connect p body (fresh o peer))) = Absent
  /\ fst (connect p body (fresh o peer))
     = Raise (OSError match close_errno o with
                      | Some c => if c =? ECONNRESET then e else c
                      | None => e
                      end).
Proof.
  intros Hs Hc. destruct o as [se ce sn rv cl]. simpl in Hs, Hc. subst.
  destruct cl as [c|]; [destruct (c =? ECONNRESET) eqn:E|].
  - assert (R : connect p body
                  (fresh (mkOracle None (Some e) sn rv (Some c)) peer)
                = (Raise (OSError e),
                   mkConn (mkOracle None (Some e) sn rv (Some c)) peer
                     [SysSocket None; SysConnect (str_of_path p) (Some e);
                      SysClose (Some c)]
                     Closed true 0 Absent Absent [] [] [] false [])).
    { unfold connect, fresh. run. simpl. rewrite E. reflexivity. }
    rewrite R. simpl. rewrite E. repeat split; reflexivity.
  - assert (R : connect p body
                  (fresh (mkOracle None (Some e) sn rv (Some c)) peer)
                = (Raise (OSError c),
                   mkConn (mkOracle None (Some e) sn rv (Some c)) peer
                     [SysSocket None; SysConnect (str_of_path p) (Some e);
                      SysClose (Some c)]
                     Closed true 0 Absent Absent [] [] [] false [])).
    { unfold connect, fresh. run. simpl. rewrite E. reflexivity. }
    rewrite R. simpl. rewrite E. repeat split; reflexivity.
  - repeat split; reflexivity.
Qed.

Lemma connect_connect_failure_witness :
  let o := mkOracle None (Some 111) (fun _ => None) (fun _ => None) None in
  let p := parse_parts (lit "/tmp/pyre_server_x.sock") in
  socket_errno o = None /\ connect_errno o = Some 111
  /\ syscalls (snd (connect p (fun _ => BufferedWriter_write (lit "ping"))
                            (fresh o [])))
     = [SysSocket None; SysConnect (lit "/tmp/pyre_server_x.sock") (Some 111);
        SysClose None]
  /\ fst (connect p (fun _ => BufferedWriter_write (lit "ping")) (fresh o []))
     = Raise (OSError 111).
Proof.
  intros o p.
  destruct (@connect_connect_failure nat p
              (fun _ => BufferedWriter_write (lit "ping")) o [] 111
              eq_refl eq_refl) as (H1 & _ & _ & _ & H5).
  split; [reflexivity|]. split; [reflexivity|]. split; [exact H1|exact H5].
Defined.

Lemma connect_released (p : Path) (script : list (bin_op * bool))
      (ending : option exn) (o : Oracle) (peer : list bytes) :
  socket_errno o = None -> connect_errno o = None ->
  released o (str_of_path p)
    (snd (connect p (fun streams => block (run_bin_op streams) script ending)
                  (fresh o peer))).
Proof.
  intros Hs Hc. rewrite (@connect_run _ p _ o peer Hs Hc).
  destruct (block (run_bin_op (Input, Output)) script ending
                  (entered o peer (str_of_path p))) as [r w] eqn:E.
  apply leave_releases.
  change w with (snd (r, w)). rewrite <- E.
  apply (@keeps_block bin_op (in_scope o (str_of_path p))).
  - intros op. apply keeps_run_bin_op.
  - apply entered_in_scope.
Qed.

Lemma connect_in_text_mode_released (p : Path)
      (script : list (text_op * bool)) (ending : option exn)
      (o : Oracle) (peer : list bytes) :
  socket_errno o = None -> connect_errno o = None ->
  released o (str_of_path p)
    (snd (connect_in_text_mode p
            (fun streams => block (run_text_op streams) script ending)
            (fresh o peer))).
Proof.
  intros Hs Hc. rewrite (@connect_in_text_mode_run _ p _ o peer Hs Hc).
  destruct (block (run_text_op (mkText Input (lit "utf-8") true,
                                mkText Output (lit "utf-8") true))
                  script ending (entered o peer (str_of_path p)))
    as [r w1] eqn:E.
  apply leave_releases.
  change w1 with (snd (r, w1)). rewrite <- E.
  apply (@keeps_block text_op (in_scope o (str_of_path p))).
  - intros op. apply keeps_run_text_op.
  - apply entered_in_scope.
Qed.

(** X3.  Once the socket is connected, whatever the block does with the
    two streams, however it ends, and whichever sends, receives or closes
    fail: when [connect] is left both streams and the socket are closed,
    and the system calls were one [socket], one [connect] to
    [str(socket_path)], sends and receives, and exactly one [close], the
    last call of all. *)
Theorem connect_closes_everything (p : Path) (script : list (bin_op * bool))
        (ending : option exn) (o : Oracle) (peer : list bytes) :
  socket_errno o = None -> connect_errno o = None ->
  released o (str_of_path p)
    (snd (connect p (fun streams => block (run_bin_op streams) script ending)
                  (fresh o peer))).
Proof. apply connect_released. Qed.

Lemma connect_closes_everything_witness :
  let o := mkOracle None None (fun i => if Nat.eqb i 0 then Some 32 else None)
                    (fun _ => None) None in
  socket_errno o = None /\ connect_errno o = None
  /\ released o (lit "/tmp/s.sock")
       (snd (connect (parse_parts (lit "/tmp/s.sock"))
               (fun streams =>
                  block (run_bin_op streams)
                        [(BWrite (lit "ping"), false); (BFlush, true);
                         (BRead1 4, false)]
                        (Some (UserError 7)))
               (fresh o [lit "pong"]))).
Proof.
  intros o. split; [reflexivity|]. split; [reflexivity|].
  apply (@connect_closes_everything (parse_parts (lit "/tmp/s.sock")));
    reflexivity.
Defined.

(** X4.  The same holds in text mode, for a block that works with the two
    text streams: on every way out both streams and the socket are
    closed, with exactly one [close], and both wrappers report closed. *)
Theorem connect_in_text_mode_closes_everything (p : Path)
        (script : list (text_op * bool)) (ending : option exn)
        (o : Oracle) (peer : list bytes) :
  socket_errno o = None -> connect_errno o = None ->
  let w := snd (connect_in_text_mode p
                  (fun streams => block (run_text_op streams) script ending)
                  (fresh o peer)) in
  released o (str_of_path p) w
  /\ forall t, text_closed t w = (Ok true, w).
Proof.
  intros Hs Hc w.
  assert (Hw : released o (str_of_path p) w)
    by (apply connect_in_text_mode_released; assumption).
  split; [exact Hw|].
  destruct Hw as (_ & _ & _ & _ & Hin & Hout & _).
  intros [[|] enc lb]; unfold text_closed; rewrite bind_run; unfold gets;
    simpl; rewrite ?Hin, ?Hout; reflexivity.
Qed.

Lemma connect_in_text_mode_closes_everything_witness :
  let o := ok_oracle in
  let w := snd (connect_in_text_mode (parse_parts (lit "/tmp/s.sock"))
                  (fun streams =>
                     block (run_text_op streams)
                           [(TWrite (lit "ping"), false); (TRead 4, false)]
                           None)
                  (fresh o [lit "pong"])) in
  socket_errno o = None /\ connect_errno o = None
  /\ released o (lit "/tmp/s.sock") w
  /\ text_closed (mkText Output (lit "utf-8") true) w = (Ok true, w).
Proof.
  intros o w. split; [reflexivity|]. split; [reflexivity|].
  destruct (@connect_in_text_mode_closes_everything
              (parse_parts (lit "/tmp/s.sock"))
              [(TWrite (lit "ping"), false); (TRead 4, false)] None
              o [lit "pong"] eq_refl eq_refl) as [H1 H2].
  split; [exact H1|apply H2].
Defined.

Lemma check_open_closed s w :
  raw_of s w = Closed -> check_open s w = (Raise ValueError, w).
Proof.
  intros H. unfold check_open. rewrite bind_run. unfold gets. rewrite H.
  reflexivity.
Qed.

Lemma buffered_close_closed s w :
  raw_of s w = Closed -> buffered_close s w = (Ok tt, w).
Proof.
  intros H. unfold buffered_close. rewrite bind_run. unfold gets. rewrite H.
  reflexivity.
Qed.

(** X5.  After the scope the streams are of no use: reading, writing or
    flushing either of them raises ValueError and makes no system call;
    closing them again does nothing. *)
Theorem streams_closed_after_connect (p : Path) (script : list (bin_op * bool))
        (ending : option exn) (o : Oracle) (peer : list bytes) (op : bin_op) :
  socket_errno o = None -> connect_errno o = None ->
  let w := snd (connect p (fun streams => block (run_bin_op streams) script ending)
                        (fresh o peer)) in
  run_bin_op (Input, Output) op w
  = (match op with
     | BCloseInput | BCloseOutput => Ok VNone
     | _ => Raise ValueError
     end, w).
Proof.
  intros Hs Hc w.
  destruct (@connect_released p script ending o peer Hs Hc)
    as (_ & _ & _ & _ & Hin & Hout & _).
  fold w in Hin, Hout.
  destruct op; simpl;
    unfold BufferedReader_read1, BufferedWriter_write, buffered_flush;
    rewrite !bind_run,
      ?(@check_open_closed Input w Hin), ?(@check_open_closed Output w Hout),
      ?(@buffered_close_closed Input w Hin),
      ?(@buffered_close_closed Output w Hout);
    reflexivity.
Qed.

Lemma streams_closed_after_connect_witness :
  let w := snd (connect (parse_parts (lit "/tmp/s.sock"))
                  (fun streams => block (run_bin_op streams)
                                        [(BWrite (lit "ping"), false)] None)
                  (fresh ok_oracle [])) in
  socket_errno ok_oracle = None /\ connect_errno ok_oracle = None
  /\ run_bin_op (Input, Output) (BWrite (lit "more")) w = (Raise ValueError, w).
Proof.
  intros w. split; [reflexivity|]. split; [reflexivity|].
  apply (@streams_closed_after_connect (parse_parts (lit "/tmp/s.sock"))
           [(BWrite (lit "ping"), false)] None ok_oracle []
           (BWrite (lit "more")) eq_refl eq_refl).
Defined.

(* ================================================================== *)
(** * What the caller gets back *)

Lemma fst_after_ok {T} (x : result T * Conn) (cleanup : M Conn unit) :
  fst (cleanup (snd x)) = Ok tt -> fst (after x cleanup) = fst x.
Proof.
  unfold after. destruct (cleanup (snd x)) as [[u|e] w]; simpl;
    [reflexivity|discriminate].
Qed.

Lemma fst_after_inv {T} (x : result T * Conn) (cleanup : M Conn unit) v :
  fst (after x cleanup) = Ok v -> fst x = Ok v.
Proof.
  unfold after. destruct (cleanup (snd x)) as [[u|e] w]; simpl;
    [auto|discriminate].
Qed.

Lemma fst_leave_inv {T} (x : result T * Conn) v :
  fst (leave x) = Ok v -> fst x = Ok v.
Proof.
  unfold leave. intros H.
  apply fst_after_inv in H. apply fst_after_inv in H.
  apply fst_after_inv in H. exact H.
Qed.

Lemma close_output_ok o a w :
  in_scope o a w -> sends_ok o -> fst (buffered_close Output w) = Ok tt.
Proof.
  intros (Hor & Hfd & Hsock & Hcalls & Hin & Hout & Hrefs) Hsend.
  destruct w as [orc ib sc f scl refs ir orw wb pb db dcr dch].
  simpl in *. subst.
  destruct orw; [contradiction| |reflexivity].
  destruct wb as [|b wb]; [destruct ir; reflexivity|].
  run. rewrite Hsend. destruct ir; reflexivity.
Qed.

Lemma close_input_ok o a w :
  in_scope o a w -> fst (buffered_close Input w) = Ok tt.
Proof.
  intros (Hor & Hfd & Hsock & Hcalls & Hin & Hout & Hrefs).
  destruct w as [orc ib sc f scl refs ir orw wb pb db dcr dch].
  simpl in *. subst.
  destruct ir; [contradiction| |reflexivity].
  destruct orw; reflexivity.
Qed.

Lemma socket_exit_ok o a w :
  in_scope o a w -> in_raw w = Closed -> out_raw w = Closed ->
  close_quiet o -> fst (socket_exit ClientSocket w) = Ok tt.
Proof.
  intros (Hor & Hfd & Hsock & Hcalls & _ & _ & Hrefs) Hin Hout Hq.
  destruct w as [orc ib sc f scl refs ir orw wb pb db dcr dch].
  simpl in *. subst. run.
  destruct Hq as [-> | ->]; reflexivity.
Qed.

(** When no send and no close fails, the exits add nothing of their own:
    the caller gets what the block returned or raised. *)
Lemma leave_result {T} o a (r : result T) (w : Conn) :
  in_scope o a w -> sends_ok o -> close_quiet o -> fst (leave (r, w)) = r.
Proof.
  intros Hw Hsend Hq. unfold leave, IOBase_exit.
  pose proof (@keeps_buffered_close o a Output w Hw) as H1. simpl in H1.
  pose proof (close_output_closes Hw) as O1.
  pose proof (@keeps_buffered_close o a Input _ H1) as H2. simpl in H2.
  pose proof (close_input_closes H1) as I2.
  pose proof (close_input_keeps_output H1) as O2. rewrite O1 in O2.
  rewrite fst_after_ok.
  - rewrite fst_after_ok.
    + rewrite fst_after_ok; [reflexivity|].
      simpl. apply (close_output_ok Hw Hsend).
    + rewrite snd_after. simpl. apply (close_input_ok H1).
  - rewrite !snd_after. simpl. apply (socket_exit_ok H2 I2 O2 Hq).
Qed.

(** X6.  When no send and no close fails, [connect] adds nothing of its
    own to the outcome: the caller of the [with] statement gets exactly
    what the block returned, or the exception it raised. *)
Theorem connect_result (p : Path) (script : list (bin_op * bool))
        (ending : option exn) (o : Oracle) (peer : list bytes) :
  socket_errno o = None -> connect_errno o = None ->
  sends_ok o -> close_quiet o ->
  fst (connect p (fun streams => block (run_bin_op streams) script ending)
               (fresh o peer))
  = fst (block (run_bin_op (Input, Output)) script ending
               (entered o peer (str_of_path p))).
Proof.
  intros Hs Hc Hsend Hq. rewrite (@connect_run _ p _ o peer Hs Hc).
  destruct (block (run_bin_op (Input, Output)) script ending
                  (entered o peer (str_of_path p))) as [r w] eqn:E.
  simpl fst at 2.
  apply (@leave_result _ o (str_of_path p)); auto.
  change w with (snd (r, w)). rewrite <- E.
  apply (@keeps_block bin_op (in_scope o (str_of_path p))).
  - intros op. apply keeps_run_bin_op.
  - apply entered_in_scope.
Qed.

Lemma connect_result_witness :
  let p := parse_parts (lit "/tmp/s.sock") in
  let script := [(BWrite (lit "ping"), false); (BRead1 4, false)] in
  socket_errno ok_oracle = None /\ connect_errno ok_oracle = None
  /\ sends_ok ok_oracle /\ close_quiet ok_oracle
  /\ fst (connect p (fun streams =>
                       block (run_bin_op streams) script
                             (Some (UserError 3)))
                  (fresh ok_oracle [lit "pong"]))
     = Raise (UserError 3)
  /\ fst (connect p (fun streams => block (run_bin_op streams) script None)
                  (fresh ok_oracle [lit "pong"]))
     = Ok [Ok (VInt 4); Ok (VBytes (lit "pong"))].
Proof.
  intros p script.
  assert (Hsend : sends_ok ok_oracle) by (intros i; reflexivity).
  assert (Hq : close_quiet ok_oracle) by (left; reflexivity).
  split; [reflexivity|]. split; [reflexivity|].
  split; [exact Hsend|]. split; [exact Hq|]. split.
  - rewrite (@connect_result p script (Some (UserError 3)) ok_oracle
               [lit "pong"] eq_refl eq_refl Hsend Hq).
    reflexivity.
  - rewrite (@connect_result p script None ok_oracle
               [lit "pong"] eq_refl eq_refl Hsend Hq).
    reflexivity.
Defined.

(* ================================================================== *)
(** * What reaches the wire *)

Lemma wire_of_app (a b : list syscall) :
  wire_of (a ++ b) = wire_of a ++ wire_of b.
Proof.
  induction a as [|c a IH]; simpl; [reflexivity|].
  destruct c as [e|ad e|d [e|]|n e|e]; rewrite ?IH, <- ?app_assoc; reflexivity.
Qed.

Ltac wire_tac :=
  unfold wire; simpl; rewrite ?wire_of_app; simpl;
  rewrite ?app_nil_r, <- ?app_assoc; simpl;
  try reflexivity; try congruence.

Ltac fin := split; [wire_tac | first [assumption | discriminate | auto]].
Lemma bin_op_flow o a op acc w :
  sends_ok o ->
  bin_flow o a acc w ->
  bin_flow o a
    (match fst (run_bin_op (Input, Output) op w) with
     | Ok _ => acc ++ match op with BWrite data => data | _ => [] end
     | Raise _ => acc
     end)
    (snd (run_bin_op (Input, Output) op w)).
Proof.
  intros Hsend (Hs & Hw & Hc).
  split; [apply keeps_run_bin_op; exact Hs|].
  destruct Hs as (Hor & Hfd & Hsock & Hcalls & Hin & Hout & Hrefs).
  destruct w as [orc ib sc f scl refs ir orw wb pb db dcr dch].
  unfold wire in *. simpl in *. subst.
  destruct op as [size|data| | |]; simpl.
  - (* read1 *)
    destruct ir; [contradiction| |]; destruct size; run; try (fin; fail).
    destruct (recv_errno o (count is_recv sc)); run; fin.
  - (* write *)
    destruct orw; [contradiction| |]; run; try (fin; fail).
    destruct (len data <=? DEFAULT_BUFFER_SIZE - len wb); run; try (fin; fail).
    destruct wb as [|b wb]; run.
    + destruct (DEFAULT_BUFFER_SIZE <? len data); run;
          rewrite ?Hsend; run; try (fin; fail).
    + rewrite Hsend. run.
        destruct (DEFAULT_BUFFER_SIZE <? len data); run;
          rewrite ?Hsend; run; try (fin; fail).
  - (* flush *)
    destruct orw; [contradiction| |]; run; try (fin; fail).
    destruct wb as [|b wb]; run; try (fin; fail).
    rewrite Hsend. run. try (fin; fail).
  - (* close input *)
    destruct ir; [contradiction| |]; run; try (fin; fail).
  - (* close output *)
    destruct orw; [contradiction| |]; run; try (fin; fail).
    destruct wb as [|b wb]; run.
    + destruct ir; run; try (fin; fail).
    + rewrite Hsend. run. destruct ir; run; try (fin; fail).
Qed.

Lemma bin_script_flow o a :
  sends_ok o ->
  forall script acc w,
    bin_flow o a acc w ->
    match fst (run_script (run_bin_op (Input, Output)) script w) with
    | Ok vs =>
        bin_flow o a (acc ++ written script vs)
                 (snd (run_script (run_bin_op (Input, Output)) script w))
    | Raise _ => True
    end.
Proof.
  intros Hsend script.
  induction script as [|[op caught] script IH]; intros acc w Hw; simpl.
  - rewrite app_nil_r. exact Hw.
  - pose proof (@bin_op_flow o a op acc w Hsend Hw) as Hop.
    destruct (run_bin_op (Input, Output) op w) as [[v|e] w1]; simpl in Hop.
    + rewrite bind_run. specialize (IH _ _ Hop).
      destruct (run_script (run_bin_op (Input, Output)) script w1)
        as [[vs|e] w2]; simpl in *; [|exact I].
      destruct op; simpl; rewrite <- ?app_assoc in IH;
        rewrite ?app_nil_r in IH; simpl in IH; exact IH.
    + destruct caught; simpl; [|exact I].
      rewrite bind_run. specialize (IH _ _ Hop).
      destruct (run_script (run_bin_op (Input, Output)) script w1)
        as [[vs|e'] w2]; simpl in *; [|exact I].
      destruct op; exact IH.
Qed.

(** The exits send what the writer still holds. *)
Lemma leave_flushes {T} o a acc (r : result T) (w : Conn) :
  sends_ok o -> bin_flow o a acc w -> wire (snd (leave (r, w))) = acc.
Proof.
  intros Hsend (Hs & Hw & Hc).
  destruct Hs as (Hor & Hfd & Hsock & Hcalls & Hin & Hout & Hrefs).
  destruct w as [orc ib sc f scl refs ir orw wb pb db dcr dch].
  unfold wire in *. simpl in *. subst.
  unfold leave. rewrite !snd_after. simpl snd.
  destruct orw; [contradiction| |].
  - destruct wb as [|b wb].
    + destruct ir; [contradiction| |]; run;
        destruct (close_errno o) as [c|]; run;
        try (destruct (c =? ECONNRESET); run); wire_tac.
    + run. rewrite Hsend. run.
      destruct ir; [contradiction| |]; run;
        destruct (close_errno o) as [c|]; run;
        try (destruct (c =? ECONNRESET); run); wire_tac.
  - rewrite (Hc eq_refl).
    destruct ir; [contradiction| |]; run;
      destruct (close_errno o) as [c|]; run;
      try (destruct (c =? ECONNRESET); run); wire_tac.
Qed.

(** X7.  Nothing written is lost or reordered in binary mode.  When no
    send fails and [connect] returns the results of the block's
    operations, the octets that reached the peer are exactly the data of
    the writes that returned, in order: what the writer still held when
    the block ended is sent by the exit. *)
Theorem connect_sends_what_was_written (p : Path)
        (script : list (bin_op * bool)) (o : Oracle) (peer : list bytes)
        (vs : list (result value)) :
  socket_errno o = None -> connect_errno o = None -> sends_ok o ->
  fst (connect p (fun streams => block (run_bin_op streams) script None)
               (fresh o peer)) = Ok vs ->
  wire (snd (connect p (fun streams => block (run_bin_op streams) script None)
                     (fresh o peer)))
  = written script vs.
Proof.
  intros Hs Hc Hsend. rewrite (@connect_run _ p _ o peer Hs Hc).
  intros Hvs. apply fst_leave_inv in Hvs.
  unfold block in *. rewrite bind_run in *.
  assert (H0 : bin_flow o (str_of_path p) [] (entered o peer (str_of_path p))).
  { split; [apply entered_in_scope|]. split; [reflexivity|]. discriminate. }
  pose proof (@bin_script_flow o (str_of_path p) Hsend script [] _ H0) as Hflow.
  destruct (run_script (run_bin_op (Input, Output)) script
                       (entered o peer (str_of_path p))) as [[vs'|e] w] eqn:E;
    simpl in *; [|discriminate].
  apply Ok_inj in Hvs. subst vs'.
  apply (@leave_flushes _ o (str_of_path p)); assumption.
Qed.

Lemma connect_sends_what_was_written_witness :
  let p := parse_parts (lit "/tmp/s.sock") in
  let script := [(BWrite (lit "ping"), false); (BCloseOutput, false);
                 (BWrite (lit "late"), true); (BRead1 4, false)] in
  let out := connect p (fun streams => block (run_bin_op streams) script None)
                     (fresh ok_oracle [lit "pong"]) in
  socket_errno ok_oracle = None /\ connect_errno ok_oracle = None
  /\ sends_ok ok_oracle
  /\ fst out = Ok [Ok (VInt 4); Ok VNone; Raise ValueError;
                   Ok (VBytes (lit "pong"))]
  /\ wire (snd out) = lit "ping".
Proof.
  intros p script out.
  assert (Hsend : sends_ok ok_oracle) by (intros i; reflexivity).
  assert (Hout : fst out = Ok [Ok (VInt 4); Ok VNone; Raise ValueError;
                               Ok (VBytes (lit "pong"))]) by reflexivity.
  split; [reflexivity|]. split; [reflexivity|]. split; [exact Hsend|].
  split; [exact Hout|].
  exact (@connect_sends_what_was_written p script ok_oracle [lit "pong"] _
           eq_refl eq_refl Hsend Hout).
Defined.

(* ================================================================== *)
(** * The output side of the text streams *)

Lemma hoare_run {A} (P : Conn -> Prop) (m : M Conn A) (v : A)
      (Q : Conn -> Prop) (w : Conn) :
  hoare P m (fun r w' => r = Ok v /\ Q w') -> P w ->
  exists w', m w = (Ok v, w') /\ Q w'.
Proof.
  intros H Hw. specialize (H w Hw). destruct (m w) as [r w'].
  simpl in H. destruct H as [-> HQ]. exists w'. split; [reflexivity|exact HQ].
Qed.

Lemma check_open_open s w : raw_of s w = Open -> check_open s w = (Ok tt, w).
Proof.
  intros H. unfold check_open. rewrite bind_run. unfold gets. rewrite H.
  reflexivity.
Qed.

Lemma codec_encode_utf8 s : codec_encode (lit "utf-8") s = encode_utf8 s.
Proof. reflexivity. Qed.

Lemma out_state_set_pending o a x y z v w :
  out_state o a x y z w -> out_state o a x y v (set_pending_bytes v w).
Proof.
  intros (Hs & Ho & Hx & Hy & Hz).
  split; [frame|]. destruct w. simpl in *. unfold wire in *. simpl in *.
  repeat split; assumption.
Qed.

Lemma _flush_unlocked_out o a x y z :
  sends_ok o ->
  hoare (out_state o a x y z) _flush_unlocked
        (fun r w => r = Ok tt /\ out_state o a (x ++ y) [] z w).
Proof.
  intros Hsend w (Hs & Ho & Hx & Hy & Hz).
  pose proof (@keeps__flush_unlocked o a w Hs) as Hk.
  split; [|split; [exact Hk|]]; clear Hk;
    destruct Hs as (Hor & Hfd & Hsock & Hcalls & Hin & Hout & Hrefs);
    destruct w as [orc ib sc f scl refs ir orw wb pb db dcr dch];
    unfold wire in *; simpl in *; subst;
    destruct y as [|b y]; run; rewrite ?Hsend; run;
    repeat split; wire_tac.
Qed.

Lemma buffered_flush_out o a x y z :
  sends_ok o ->
  hoare (out_state o a x y z) (buffered_flush Output)
        (fun r w => r = Ok tt /\ out_state o a (x ++ y) [] z w).
Proof.
  intros Hsend w Hw. unfold buffered_flush. rewrite bind_run.
  rewrite check_open_open; [|apply Hw].
  apply (@_flush_unlocked_out o a x y z Hsend w Hw).
Qed.

Lemma BufferedWriter_write_out o a x y z data :
  sends_ok o ->
  hoare (out_state o a x y z) (BufferedWriter_write data)
        (fun r w => r = Ok (length data)
                    /\ exists x' y', out_state o a x' y' z w
                                     /\ x' ++ y' = x ++ y ++ data).
Proof.
  intros Hsend w (Hs & Ho & Hx & Hy & Hz).
  pose proof (@keeps_BufferedWriter_write o a data w Hs) as Hk.
  unfold out_state.
  destruct Hs as (Hor & Hfd & Hsock & Hcalls & Hin & Hout & Hrefs).
  destruct w as [orc ib sc f scl refs ir orw wb pb db dcr dch].
  unfold wire in *. simpl in *. subst. revert Hk. run.
  destruct (len data <=? DEFAULT_BUFFER_SIZE - len y); run.
  - intros Hk. split; [reflexivity|].
    exists (wire_of sc), (y ++ data). repeat split; auto.
  - destruct y as [|b y]; run; rewrite ?Hsend; run;
      destruct (DEFAULT_BUFFER_SIZE <? len data); run; rewrite ?Hsend; run;
      intros Hk; (split; [reflexivity|]);
      do 2 eexists; (split; [split; [exact Hk|repeat split]|]); wire_tac.
Qed.

Lemma _writeflush_out o a x y z :
  sends_ok o ->
  hoare (out_state o a x y z) _writeflush
        (fun r w => r = Ok tt
                    /\ exists x' y', out_state o a x' y' [] w
                                     /\ x' ++ y' = x ++ y ++ z).
Proof.
  intros Hsend w Hw. unfold _writeflush. rewrite bind_run. unfold gets.
  pose proof Hw as (_ & _ & _ & _ & Hz). rewrite Hz.
  destruct z as [|c z].
  - split; [reflexivity|]. exists x, y. split; [exact Hw|].
    rewrite app_nil_r. reflexivity.
  - rewrite bind_run. unfold modify.
    pose proof (@out_state_set_pending o a x y (c :: z) [] w Hw) as H1.
    destruct (@hoare_run _ _ _ _ _ _ (@BufferedWriter_write_out o a x y [] (c :: z) Hsend) H1)
      as (w2 & E2 & x' & y' & H2 & Hxy).
    rewrite bind_run, E2. split; [reflexivity|].
    exists x', y'. split; assumption.
Qed.


Lemma text_write_refused s e w :
  out_raw w = Open -> encode_utf8 s = Raise e ->
  text_write text_output s w = (Raise UnicodeEncodeError, w).
Proof.
  intros Ho Eb. unfold text_write.
  cbn [buffer encoding line_buffering text_output].
  rewrite bind_run, check_open_open by exact Ho. cbv beta iota.
  rewrite bind_run, codec_encode_utf8, Eb. unfold lift.
  rewrite (encode_utf8_raise _ Eb). reflexivity.
Qed.

(** What one [write] on the output wrapper does while the stream is open. *)
Lemma text_write_accepted o a x y z s b w :
  sends_ok o -> out_state o a x y z w -> encode_utf8 s = Ok b ->
  fst (text_write text_output s w) = Ok (length s)
  /\ exists x' y' z',
       out_state o a x' y' z' (snd (text_write text_output s w))
       /\ x' ++ y' ++ z' = x ++ y ++ z ++ b
       /\ (ends_line s = true -> y' = [] /\ z' = []).
Proof.
  intros Hsend Hw Eb.
  pose proof Hw as (_ & Ho & _ & _ & Hz).
  (* the text joins what the wrapper holds *)
  assert (HA : exists w1 x1 y1 z1,
             (if CHUNK_SIZE <? len z + len b
              then _writeflush ;;; modify (set_pending_bytes b)
              else modify (set_pending_bytes (z ++ b))) w = (Ok tt, w1)
             /\ out_state o a x1 y1 z1 w1
             /\ x1 ++ y1 ++ z1 = x ++ y ++ z ++ b).
  { destruct (CHUNK_SIZE <? len z + len b).
    - destruct (@hoare_run _ _ _ _ _ _ (@_writeflush_out o a x y z Hsend) Hw)
        as (w1 & E1 & x1 & y1 & H1 & Hxy).
      exists (set_pending_bytes b w1), x1, y1, b.
      rewrite bind_run, E1. split; [reflexivity|].
      split; [apply (out_state_set_pending b H1)|].
      rewrite app_assoc, Hxy, <- !app_assoc. reflexivity.
    - exists (set_pending_bytes (z ++ b) w), x, y, (z ++ b).
      split; [reflexivity|].
      split; [apply (out_state_set_pending (z ++ b) Hw)|reflexivity]. }
  destruct HA as (w1 & x1 & y1 & z1 & E1 & H1 & T1).
  pose proof H1 as (_ & _ & _ & _ & Hz1).
  (* a full wrapper, or a line end, hands it to the writer *)
  assert (HB : exists w2 x2 y2 z2,
             (if (CHUNK_SIZE <=? len z1) || ends_line s
              then _writeflush else ret tt) w1 = (Ok tt, w2)
             /\ out_state o a x2 y2 z2 w2
             /\ x2 ++ y2 ++ z2 = x ++ y ++ z ++ b
             /\ (ends_line s = true -> z2 = [])).
  { destruct ((CHUNK_SIZE <=? len z1) || ends_line s) eqn:Ec.
    - destruct (@hoare_run _ _ _ _ _ _ (@_writeflush_out o a x1 y1 z1 Hsend) H1)
        as (w2 & E2 & x2 & y2 & H2 & Hxy).
      exists w2, x2, y2, []. split; [exact E2|]. split; [exact H2|].
      split; [|reflexivity].
      rewrite app_nil_r, Hxy. exact T1.
    - exists w1, x1, y1, z1. split; [reflexivity|]. split; [exact H1|].
      split; [exact T1|].
      intros Hl. rewrite Hl, orb_true_r in Ec. discriminate. }
  destruct HB as (w2 & x2 & y2 & z2 & E2 & H2 & T2 & L2).
  (* a line end also flushes the writer *)
  assert (HC : exists w3 y3,
             (if ends_line s then buffered_flush Output else ret tt) w2
             = (Ok tt, w3)
             /\ exists x3, out_state o a x3 y3 z2 w3
             /\ x3 ++ y3 = x2 ++ y2
             /\ (ends_line s = true -> y3 = [])).
  { destruct (ends_line s).
    - destruct (@hoare_run _ _ _ _ _ _ (@buffered_flush_out o a x2 y2 z2 Hsend) H2)
        as (w3 & E3 & H3).
      exists w3, []. split; [exact E3|]. exists (x2 ++ y2).
      split; [exact H3|]. split; [apply app_nil_r|reflexivity].
    - exists w2, y2. split; [reflexivity|]. exists x2.
      split; [exact H2|]. split; [reflexivity|discriminate]. }
  destruct HC as (w3 & y3 & E3 & x3 & H3 & T3 & L3).
  assert (E : text_write text_output s w = (Ok (length s), w3)).
  { unfold text_write. cbn [buffer encoding line_buffering text_output].
    rewrite bind_run, check_open_open by exact Ho. cbv beta iota.
    rewrite bind_run, codec_encode_utf8, Eb. unfold lift. cbv beta iota.
    rewrite bind_run. unfold gets at 1. cbv beta iota. rewrite Hz.
    rewrite bind_run, E1. cbv beta iota.
    rewrite bind_run. unfold gets at 1. cbv beta iota. rewrite Hz1.
    cbn [andb]. change (has_char 10 s || has_char 13 s) with (ends_line s).
    rewrite bind_run, E2. cbv beta iota.
    rewrite bind_run, E3. reflexivity. }
  rewrite E. split; [reflexivity|].
  exists x3, y3, z2. split; [exact H3|]. split.
  - rewrite app_assoc, T3, <- app_assoc. exact T2.
  - intros Hl. split; [apply L3, Hl|apply L2, Hl].
Qed.

(* ================================================================== *)
(** * Reading leaves the output side alone *)

Lemma same_check_open w0 s : keeps (out_same w0) (check_open s).
Proof.
  intros w Hw. unfold check_open. rewrite bind_run. unfold gets.
  destruct (raw_of s w); exact Hw.
Qed.

Lemma same_sys_recv w0 size : keeps (out_same w0) (sys_recv size).
Proof.
  intros w (H1 & H2 & H3 & H4).
  destruct w as [orc ib sc f scl refs ir orw wb pb db dcr dch].
  unfold out_same, wire in *. simpl in *.
  destruct f; run; try (repeat split; assumption).
  destruct (recv_errno orc (count is_recv sc)); run;
    rewrite wire_of_app; simpl; rewrite app_nil_r; repeat split; assumption.
Qed.

Ltac same_set :=
  apply keeps_modify; intros w (H1 & H2 & H3 & H4);
  destruct w; unfold out_same, wire in *; simpl in *;
  repeat split; assumption.

Lemma same_BufferedReader_read1 w0 size :
  keeps (out_same w0) (BufferedReader_read1 size).
Proof.
  unfold BufferedReader_read1. apply keeps_bind; [apply same_check_open|].
  intros _. destruct size; [apply keeps_ret|].
  unfold SocketIO_read. apply keeps_bind; [apply same_check_open|].
  intros _. apply same_sys_recv.
Qed.

Lemma same_decoder_decode w0 t input final :
  keeps (out_same w0) (decoder_decode t input final).
Proof.
  unfold decoder_decode. apply keeps_bind; [apply keeps_gets|]. intros held.
  destruct (codec_decode (encoding t) (held ++ input) final) as [[text rest]|];
    [|apply keeps_raise].
  apply keeps_bind; [same_set|]. intros _.
  apply keeps_bind; [apply keeps_gets|]. intros cr.
  apply keeps_bind; [same_set|]. intros _. apply keeps_ret.
Qed.

Lemma same__read_chunk w0 t hint : keeps (out_same w0) (_read_chunk t hint).
Proof.
  unfold _read_chunk. apply keeps_bind; [apply same_BufferedReader_read1|].
  intros chunk. apply keeps_bind; [apply same_decoder_decode|]. intros decoded.
  apply keeps_bind; [same_set|]. intros _. apply keeps_ret.
Qed.

Lemma same__get_decoded_chars w0 n : keeps (out_same w0) (_get_decoded_chars n).
Proof.
  unfold _get_decoded_chars. apply keeps_bind; [apply keeps_gets|]. intros chars.
  apply keeps_bind; [same_set|]. intros _. apply keeps_ret.
Qed.

Lemma same_read_loop w0 t rounds :
  forall size result, keeps (out_same w0) (read_loop t rounds size result).
Proof.
  induction rounds as [|rounds IH]; intros size result; simpl.
  - apply keeps_ret.
  - apply keeps_if; [|apply keeps_ret].
    apply keeps_bind; [apply same__read_chunk|]. intros more.
    apply keeps_bind; [apply same__get_decoded_chars|]. intros chars.
    destruct more; [apply IH|apply keeps_ret].
Qed.

Lemma same_text_read w0 t size : keeps (out_same w0) (text_read t size).
Proof.
  unfold text_read. apply keeps_bind; [apply same_check_open|]. intros _.
  destruct (buffer t); [|apply keeps_raise].
  apply keeps_bind; [apply same__get_decoded_chars|]. intros result.
  apply keeps_bind; [apply keeps_gets|]. intros rounds. apply same_read_loop.
Qed.

Lemma out_same_refl w : out_same w w.
Proof. repeat split. Qed.

Lemma same_text_close_input o a w :
  in_scope o a w -> out_same w (snd (text_close text_input w)).
Proof.
  intros (Hor & Hfd & Hsock & Hcalls & Hin & Hout & Hrefs).
  destruct w as [orc ib sc f scl refs ir orw wb pb db dcr dch].
  simpl in *. subst.
  unfold text_close, text_closed, text_flush, text_input, out_same, wire.
  cbn [buffer].
  destruct ir; [contradiction| |]; run; repeat split.
Qed.

(** An input-side operation inside a text block. *)
Lemma same_input_op (op : text_op) o a w :
  in_scope o a w ->
  match op with TRead _ | TCloseInput => True | _ => False end ->
  out_same w (snd (run_text_op (text_input, text_output) op w)).
Proof.
  intros Hs Hop. destruct op; try contradiction; cbn [run_text_op fst snd].
  - assert (K : keeps (out_same w)
                      (s <- text_read text_input size ;; ret (VStr s))).
    { apply keeps_bind; [apply same_text_read|]. intros s. apply keeps_ret. }
    apply K, out_same_refl.
  - rewrite bind_run.
    pose proof (@same_text_close_input o a w Hs) as H.
    destruct (text_close text_input w) as [[u|e] w']; exact H.
Qed.

(* ================================================================== *)
(** * What a text block leaves where *)

Lemma text_write_closed s w :
  out_raw w = Closed -> text_write text_output s w = (Raise ValueError, w).
Proof.
  intros Ho. unfold text_write. cbn [buffer text_output].
  rewrite bind_run, check_open_closed by exact Ho. reflexivity.
Qed.

Lemma text_flush_closed w :
  out_raw w = Closed -> text_flush text_output w = (Raise ValueError, w).
Proof.
  intros Ho. unfold text_flush. cbn [buffer text_output].
  rewrite bind_run, check_open_closed by exact Ho. reflexivity.
Qed.

Lemma text_close_closed w :
  out_raw w = Closed -> text_close text_output w = (Ok tt, w).
Proof.
  intros Ho. unfold text_close, text_closed. cbn [buffer text_output].
  rewrite !bind_run. unfold gets. cbn [raw_of]. rewrite Ho. reflexivity.
Qed.

Lemma text_flush_out o a x y z :
  sends_ok o ->
  hoare (out_state o a x y z) (text_flush text_output)
        (fun r w => r = Ok tt /\ out_state o a (x ++ y ++ z) [] [] w).
Proof.
  intros Hsend w Hw. unfold text_flush. cbn [buffer text_output].
  rewrite bind_run, check_open_open by apply Hw. cbv beta iota.
  destruct (@hoare_run _ _ _ _ _ _ (@_writeflush_out o a x y z Hsend) Hw)
    as (w1 & E1 & x1 & y1 & H1 & Hxy).
  rewrite !bind_run, E1. cbv beta iota.
  pose proof (@buffered_flush_out o a x1 y1 [] Hsend w1 H1) as H2.
  rewrite Hxy in H2. exact H2.
Qed.

Lemma buffered_close_out o a x z w :
  out_state o a x [] z w ->
  fst (buffered_close Output w) = Ok tt
  /\ out_raw (snd (buffered_close Output w)) = Closed
  /\ wire (snd (buffered_close Output w)) = x
  /\ write_buf (snd (buffered_close Output w)) = []
  /\ pending_bytes (snd (buffered_close Output w)) = z.
Proof.
  intros (Hs & Ho & Hx & Hy & Hz).
  destruct Hs as (Hor & Hfd & Hsock & Hcalls & Hin & Hout & Hrefs).
  destruct w as [orc ib sc f scl refs ir orw wb pb db dcr dch].
  unfold wire in *. simpl in *. subst.
  destruct ir; [contradiction| |]; run; repeat split.
Qed.

Lemma text_close_out o a x y z w :
  sends_ok o -> out_state o a x y z w ->
  fst (text_close text_output w) = Ok tt
  /\ out_raw (snd (text_close text_output w)) = Closed
  /\ wire (snd (text_close text_output w)) = x ++ y ++ z
  /\ write_buf (snd (text_close text_output w)) = []
  /\ pending_bytes (snd (text_close text_output w)) = [].
Proof.
  intros Hsend Hw. pose proof Hw as (_ & Ho & _).
  assert (E0 : text_close text_output w
               = try_finally (text_flush text_output)
                             (buffered_close Output) w).
  { unfold text_close, text_closed. cbn [buffer text_output].
    rewrite !bind_run. unfold gets. cbn [raw_of]. rewrite Ho. reflexivity. }
  rewrite E0, try_finally_run.
  destruct (@hoare_run _ _ _ _ _ _ (@text_flush_out o a x y z Hsend) Hw)
    as (w1 & E1 & H1).
  rewrite E1. unfold after. cbn [fst snd].
  pose proof (@buffered_close_out o a _ _ w1 H1) as (C1 & C2 & C3 & C4 & C5).
  destruct (buffered_close Output w1) as [[u|e] w2]; simpl in *;
    [|discriminate].
  repeat split; assumption.
Qed.

Lemma text_op_flow o a op acc w :
  sends_ok o ->
  text_flow o a acc w ->
  text_flow o a
    (match fst (run_text_op (text_input, text_output) op w) with
     | Ok _ => acc ++ match op with TWrite s => encoded s | _ => [] end
     | Raise _ => acc
     end)
    (snd (run_text_op (text_input, text_output) op w)).
Proof.
  intros Hsend (Hs & Hw & Hc).
  split; [apply keeps_run_text_op; exact Hs|].
  assert (Hin : forall op',
             match op' with TRead _ | TCloseInput => True | _ => False end ->
             wire (snd (run_text_op (text_input, text_output) op' w))
             ++ write_buf (snd (run_text_op (text_input, text_output) op' w))
             ++ pending_bytes (snd (run_text_op (text_input, text_output) op' w))
             = acc
             /\ (out_raw (snd (run_text_op (text_input, text_output) op' w))
                 = Closed ->
                 write_buf (snd (run_text_op (text_input, text_output) op' w))
                 = [])).
  { intros op' Hop.
    destruct (@same_input_op op' o a w Hs Hop) as (S1 & S2 & S3 & S4).
    rewrite S1, S2, S3, S4. split; assumption. }
  assert (Hopen : out_raw w = Open ->
                  out_state o a (wire w) (write_buf w) (pending_bytes w) w).
  { intros Ho. repeat split; try assumption; apply Hs. }
  destruct op as [size|s| | |].
  - destruct (Hin (TRead size) I) as [H1 H2].
    destruct (fst (run_text_op (text_input, text_output) (TRead size) w));
      rewrite ?app_nil_r; split; assumption.
  - cbn [run_text_op fst snd]. rewrite bind_run.
    destruct (out_raw w) eqn:Ho.
    + destruct Hs as (_ & _ & _ & _ & _ & Hout & _). contradiction.
    + destruct (encode_utf8 s) as [b|e] eqn:Eb.
      * destruct (@text_write_accepted o a _ _ _ s b w Hsend (Hopen eq_refl) Eb)
          as (R & x' & y' & z' & (_ & Ho' & Hx' & Hy' & Hz') & T & _).
        destruct (text_write text_output s w) as [r w']. simpl in *. subst r.
        simpl. unfold encoded. rewrite Eb. subst x' y' z'. split.
        -- rewrite T, <- Hw, <- !app_assoc. reflexivity.
        -- rewrite Ho'. discriminate.
      * rewrite (@text_write_refused s e w Ho Eb). simpl. split; [exact Hw|].
        rewrite Ho. discriminate.
    + rewrite (@text_write_closed s w Ho). simpl. split; [exact Hw|].
      intros _. apply Hc. reflexivity.
  - cbn [run_text_op fst snd]. rewrite bind_run.
    destruct (out_raw w) eqn:Ho.
    + destruct Hs as (_ & _ & _ & _ & _ & Hout & _). contradiction.
    + destruct (@hoare_run _ _ _ _ _ _
                  (@text_flush_out o a (wire w) (write_buf w) (pending_bytes w)
                                   Hsend) (Hopen eq_refl))
        as (w1 & E1 & (_ & Ho1 & Hx1 & Hy1 & Hz1)).
      rewrite E1. simpl. rewrite Hx1, Hy1, Hz1, !app_nil_r. split.
      * rewrite <- Hw. reflexivity.
      * reflexivity.
    + rewrite (@text_flush_closed w Ho). simpl. split; [exact Hw|].
      intros _. apply Hc. reflexivity.
  - destruct (Hin TCloseInput I) as [H1 H2].
    destruct (fst (run_text_op (text_input, text_output) TCloseInput w));
      rewrite ?app_nil_r; split; assumption.
  - cbn [run_text_op fst snd]. rewrite bind_run.
    destruct (out_raw w) eqn:Ho.
    + destruct Hs as (_ & _ & _ & _ & _ & Hout & _). contradiction.
    + destruct (@text_close_out o a _ _ _ w Hsend (Hopen eq_refl))
        as (C1 & C2 & C3 & C4 & C5).
      destruct (text_close text_output w) as [r w']. simpl in *. subst r.
      simpl. rewrite C3, C4, C5, !app_nil_r. split.
      * rewrite <- Hw. reflexivity.
      * reflexivity.
    + rewrite (@text_close_closed w Ho). simpl. rewrite app_nil_r.
      split; [exact Hw|]. intros _. apply Hc. reflexivity.
Qed.

Lemma text_script_flow o a :
  sends_ok o ->
  forall script acc w,
    text_flow o a acc w ->
    match fst (run_script (run_text_op (text_input, text_output)) script w) with
    | Ok vs =>
        text_flow o a (acc ++ text_written script vs)
          (snd (run_script (run_text_op (text_input, text_output)) script w))
    | Raise _ => True
    end.
Proof.
  intros Hsend script.
  induction script as [|[op caught] script IH]; intros acc w Hw; simpl.
  - rewrite app_nil_r. exact Hw.
  - pose proof (@text_op_flow o a op acc w Hsend Hw) as Hop.
    destruct (run_text_op (text_input, text_output) op w) as [[v|e] w1];
      simpl in Hop.
    + rewrite bind_run. specialize (IH _ _ Hop).
      destruct (run_script (run_text_op (text_input, text_output)) script w1)
        as [[vs|e] w2]; simpl in *; [|exact I].
      destruct op; simpl; rewrite <- ?app_assoc in IH;
        rewrite ?app_nil_r in IH; simpl in IH; exact IH.
    + destruct caught; simpl; [|exact I].
      rewrite bind_run. specialize (IH _ _ Hop).
      destruct (run_script (run_text_op (text_input, text_output)) script w1)
        as [[vs|e'] w2]; simpl in *; [|exact I].
      destruct op; exact IH.
Qed.

(** The exits never touch what the wrapper holds. *)
Lemma leave_pending {T} o a (r : result T) (w : Conn) :
  in_scope o a w -> pending_bytes (snd (leave (r, w))) = pending_bytes w.
Proof.
  intros Hs.
  destruct Hs as (Hor & Hfd & Hsock & Hcalls & Hin & Hout & Hrefs).
  destruct w as [orc ib sc f scl refs ir orw wb pb db dcr dch].
  simpl in *. subst.
  unfold leave. rewrite !snd_after. simpl snd.
  destruct orw; [contradiction| |];
    (destruct wb as [|b wb]; run;
     [|destruct (send_errno o (count is_send sc)); run]);
    (destruct ir; [contradiction| |]; run;
     destruct (close_errno o) as [c|]; run;
     try (destruct (c =? ECONNRESET); run); reflexivity).
Qed.

(** With nothing in the writer, the exits send nothing. *)
Lemma leave_sends_nothing {T} o a (r : result T) (w : Conn) :
  in_scope o a w -> write_buf w = [] -> wire (snd (leave (r, w))) = wire w.
Proof.
  intros Hs Hy.
  destruct Hs as (Hor & Hfd & Hsock & Hcalls & Hin & Hout & Hrefs).
  destruct w as [orc ib sc f scl refs ir orw wb pb db dcr dch].
  unfold wire. simpl in *. subst.
  unfold leave. rewrite !snd_after. simpl snd.
  destruct orw; [contradiction| |];
    (destruct ir; [contradiction| |]; run;
     destruct (close_errno o) as [c|]; run;
     try (destruct (c =? ECONNRESET); run); wire_tac).
Qed.

Lemma entered_out_state o peer address :
  out_state o address [] [] [] (entered o peer address).
Proof.
  split; [apply entered_in_scope|]. repeat split.
Qed.

Lemma entered_text_flow o peer address :
  text_flow o address [] (entered o peer address).
Proof.
  split; [apply entered_in_scope|]. split; [reflexivity|discriminate].
Qed.

Lemma snd_block {Op} (run : Op -> M Conn value) script ending w :
  snd (block run script ending w) = snd (run_script run script w).
Proof.
  unfold block. rewrite bind_run.
  destruct (run_script run script w) as [[vs|e] w']; [|reflexivity].
  destruct ending; reflexivity.
Qed.

Lemma fst_block_inv {Op} (run : Op -> M Conn value) script w vs :
  fst (block run script None w) = Ok vs ->
  fst (run_script run script w) = Ok vs.
Proof.
  unfold block. rewrite bind_run.
  destruct (run_script run script w) as [[vs'|e] w']; simpl; auto.
Qed.

Lemma Ok_inj_pair {A S} (a b : A) (w w' : S) :
  (Ok a, w) = (Ok b, w') -> a = b /\ w = w'.
Proof. intros H. injection H as -> ->. split; reflexivity. Qed.

(** A write that ends a line leaves nothing behind it. *)
Lemma text_script_line o a s :
  sends_ok o -> ends_line s = true ->
  forall script acc w vs w',
    text_flow o a acc w ->
    run_script (run_text_op (text_input, text_output))
               (script ++ [(TWrite s, false)]) w = (Ok vs, w') ->
    wire w' = acc ++ text_written (script ++ [(TWrite s, false)]) vs.
Proof.
  intros Hsend Hl script.
  induction script as [|[op caught] script IH]; intros acc w vs w' Hw E.
  - simpl in E. rewrite bind_run in E.
    destruct Hw as (Hs & Hw & Hc).
    destruct (out_raw w) eqn:Ho.
    + destruct Hs as (_ & _ & _ & _ & _ & Hout & _). contradiction.
    + destruct (encode_utf8 s) as [b|e] eqn:Eb.
      * assert (Hopen : out_state o a (wire w) (write_buf w) (pending_bytes w) w)
          by (repeat split; try assumption; apply Hs).
        destruct (@text_write_accepted o a _ _ _ s b w Hsend Hopen Eb)
          as (R & x' & y' & z' & (_ & _ & Hx' & _ & _) & T & L).
        destruct (L Hl) as [-> ->].
        destruct (text_write text_output s w) as [r w1]. simpl in *. subst r.
        apply Ok_inj_pair in E. destruct E as [<- <-].
        unfold encoded. rewrite Eb, Hx', app_nil_r.
        rewrite app_nil_r in T. rewrite T, <- Hw, <- !app_assoc.
        reflexivity.
      * rewrite (@text_write_refused s e w Ho Eb) in E. discriminate.
    + rewrite (@text_write_closed s w Ho) in E. discriminate.
  - simpl in E.
    pose proof (@text_op_flow o a op acc w Hsend Hw) as Hop.
    destruct (run_text_op (text_input, text_output) op w) as [[v|e] w1];
      simpl in Hop.
    + rewrite bind_run in E.
      destruct (run_script (run_text_op (text_input, text_output))
                           (script ++ [(TWrite s, false)]) w1)
        as [[vs1|e1] w2] eqn:E1; [|discriminate].
      apply Ok_inj_pair in E. destruct E as [<- <-].
      rewrite (IH _ _ _ _ Hop E1).
      destruct op; simpl; rewrite <- ?app_assoc, ?app_nil_r; reflexivity.
    + destruct caught; [|discriminate].
      rewrite bind_run in E.
      destruct (run_script (run_text_op (text_input, text_output))
                           (script ++ [(TWrite s, false)]) w1)
        as [[vs1|e1] w2] eqn:E1; [|discriminate].
      apply Ok_inj_pair in E. destruct E as [<- <-].
      rewrite (IH _ _ _ _ Hop E1).
      destruct op; reflexivity.
Qed.

Lemma len_app (a b : list Z) : len (a ++ b) = len a + len b.
Proof. unfold len. rewrite length_app. lia. Qed.

Lemma len_nonneg (a : list Z) : 0 <= len a.
Proof. unfold len. lia. Qed.

Lemma script_octets_nonneg script : 0 <= script_octets script.
Proof.
  induction script as [|[op c] script IH]; simpl; [lia|].
  destruct op; try exact IH. pose proof (len_nonneg (encoded s)). lia.
Qed.

Lemma out_state_same o a x y z w w' :
  in_scope o a w' -> out_same w w' -> out_state o a x y z w ->
  out_state o a x y z w'.
Proof.
  intros Hs (S1 & S2 & S3 & S4) (_ & Ho & Hx & Hy & Hz).
  split; [exact Hs|]. rewrite S1, S2, S3, S4. repeat split; assumption.
Qed.

(** A short text without a line end stays in the wrapper. *)
Lemma quiet_write o a z s w :
  out_state o a [] [] z w -> ends_line s = false ->
  len z + len (encoded s) < CHUNK_SIZE ->
  exists z', out_state o a [] [] z' (snd (text_write text_output s w))
             /\ len z' <= len z + len (encoded s).
Proof.
  intros Hw Hl Hlen. pose proof Hw as (_ & Ho & _ & _ & Hz).
  unfold encoded in *.
  destruct (encode_utf8 s) as [b|e] eqn:Eb.
  - assert (E : text_write text_output s w
                = (Ok (length s), set_pending_bytes (z ++ b) w)).
    { unfold text_write. cbn [buffer encoding line_buffering text_output].
      rewrite bind_run, check_open_open by exact Ho. cbv beta iota.
      rewrite bind_run, codec_encode_utf8, Eb. unfold lift. cbv beta iota.
      rewrite bind_run. unfold gets at 1. cbv beta iota. rewrite Hz.
      assert (C1 : (CHUNK_SIZE <? len z + len b) = false)
        by (apply Z.ltb_ge; lia).
      rewrite C1.
      rewrite bind_run. unfold modify at 1. cbv beta iota.
      rewrite bind_run. unfold gets at 1. cbv beta iota.
      assert (P : pending_bytes (set_pending_bytes (z ++ b) w) = z ++ b)
        by (destruct w; reflexivity).
      rewrite P.
      cbn [andb]. change (has_char 10 s || has_char 13 s) with (ends_line s).
      rewrite Hl.
      assert (C2 : (CHUNK_SIZE <=? len (z ++ b)) = false)
        by (apply Z.leb_gt; rewrite len_app; lia).
      rewrite C2. reflexivity. }
    rewrite E. exists (z ++ b). split.
    + apply (out_state_set_pending (z ++ b) Hw).
    + rewrite len_app. lia.
  - rewrite (@text_write_refused s e w Ho Eb). exists z.
    split; [exact Hw|]. unfold len. simpl. lia.
Qed.

Lemma quiet_op o a z op w :
  out_state o a [] [] z w -> keeps_back op = true ->
  len z + script_octets [(op, false)] < CHUNK_SIZE ->
  exists z',
    out_state o a [] [] z'
              (snd (run_text_op (text_input, text_output) op w))
    /\ len z' <= len z + script_octets [(op, false)].
Proof.
  intros Hw Hop Hlen. pose proof Hw as (Hs & _).
  pose proof (@keeps_run_text_op o a (text_input, text_output) op w Hs) as Hk.
  destruct op as [size|s| | |]; try discriminate.
  - exists z. split; [|simpl; lia].
    apply (@out_state_same o a _ _ _ w _ Hk); [|exact Hw].
    apply (@same_input_op (TRead size) o a w Hs I).
  - simpl in Hlen, Hop. apply negb_true_iff in Hop.
    assert (Hlen' : len z + len (encoded s) < CHUNK_SIZE) by lia.
    destruct (@quiet_write o a z s w Hw Hop Hlen') as (z' & H1 & H2).
    exists z'. cbn [run_text_op fst snd]. rewrite bind_run.
    destruct (text_write text_output s w) as [[n|e] w1]; simpl in *;
      (split; [exact H1|lia]).
  - exists z. split; [|simpl; lia].
    apply (@out_state_same o a _ _ _ w _ Hk); [|exact Hw].
    apply (@same_input_op TCloseInput o a w Hs I).
Qed.

Lemma quiet_script o a :
  forall script z w,
    out_state o a [] [] z w ->
    forallb (fun step => keeps_back (fst step)) script = true ->
    len z + script_octets script < CHUNK_SIZE ->
    exists z',
      out_state o a [] [] z'
        (snd (run_script (run_text_op (text_input, text_output)) script w)).
Proof.
  induction script as [|[op caught] script IH]; intros z w Hw Hq Hlen.
  - exists z. exact Hw.
  - simpl in Hq. apply andb_true_iff in Hq. destruct Hq as [Hop Hq].
    pose proof (script_octets_nonneg script) as Hnn.
    assert (Hsplit : script_octets ((op, caught) :: script)
                     = script_octets [(op, false)] + script_octets script)
      by (destruct op; simpl; lia).
    assert (Hlen1 : len z + script_octets [(op, false)] < CHUNK_SIZE) by lia.
    destruct (@quiet_op o a z op w Hw Hop Hlen1) as (z1 & H1 & L1).
    assert (Hlen2 : len z1 + script_octets script < CHUNK_SIZE) by lia.
    simpl.
    destruct (run_text_op (text_input, text_output) op w) as [[v|e] w1];
      simpl in H1.
    + rewrite bind_run.
      destruct (IH z1 w1 H1 Hq Hlen2) as (z' & H').
      exists z'.
      destruct (run_script (run_text_op (text_input, text_output)) script w1)
        as [[vs|e] w2]; exact H'.
    + destruct caught; [|exists z1; exact H1].
      rewrite bind_run.
      destruct (IH z1 w1 H1 Hq Hlen2) as (z' & H').
      exists z'.
      destruct (run_script (run_text_op (text_input, text_output)) script w1)
        as [[vs|e'] w2]; exact H'.
Qed.

(** X8.  In text mode the octets that reached the peer are a prefix of
    the UTF-8 encoding of the texts written, in order, and what is missing
    is exactly what the output wrapper still holds when the scope is left:
    the exits send what the binary stream holds, but nothing flushes the
    wrapper. *)
Theorem connect_in_text_mode_sends_prefix (p : Path)
        (script : list (text_op * bool)) (o : Oracle) (peer : list bytes)
        (vs : list (result value)) :
  socket_errno o = None -> connect_errno o = None -> sends_ok o ->
  fst (connect_in_text_mode p
         (fun streams => block (run_text_op streams) script None)
         (fresh o peer)) = Ok vs ->
  wire (snd (connect_in_text_mode p
               (fun streams => block (run_text_op streams) script None)
               (fresh o peer)))
  ++ pending_bytes (snd (connect_in_text_mode p
               (fun streams => block (run_text_op streams) script None)
               (fresh o peer)))
  = text_written script vs.
Proof.
  intros Hs Hc Hsend.
  rewrite (@connect_in_text_mode_run _ p _ o peer Hs Hc).
  change (mkText Input (lit "utf-8") true, mkText Output (lit "utf-8") true)
    with (text_input, text_output).
  intros Hvs. apply fst_leave_inv in Hvs. apply fst_block_inv in Hvs.
  pose proof (@text_script_flow o (str_of_path p) Hsend script [] _
                (entered_text_flow o peer (str_of_path p))) as Hflow.
  rewrite Hvs in Hflow. simpl in Hflow.
  rewrite <- (@snd_block _ _ script None) in Hflow.
  destruct (block (run_text_op (text_input, text_output)) script None
                  (entered o peer (str_of_path p))) as [r w].
  simpl in Hflow. destruct Hflow as (Hin & Hacc & Hcl).
  rewrite (@leave_pending _ o (str_of_path p) r w Hin).
  rewrite (@leave_flushes _ o (str_of_path p) (wire w ++ write_buf w) r w Hsend).
  - rewrite <- app_assoc. exact Hacc.
  - split; [exact Hin|]. split; [reflexivity|exact Hcl].
Qed.

Lemma connect_in_text_mode_sends_prefix_witness :
  let p := parse_parts (lit "/tmp/s.sock") in
  let script := [(TWrite ((lit "one" ++ [10])), false); (TWrite (lit "two"), false)] in
  let out := connect_in_text_mode p
               (fun streams => block (run_text_op streams) script None)
               (fresh ok_oracle []) in
  socket_errno ok_oracle = None /\ connect_errno ok_oracle = None
  /\ sends_ok ok_oracle
  /\ fst out = Ok [Ok (VInt 4); Ok (VInt 3)]
  /\ wire (snd out) = (lit "one" ++ [10])
  /\ wire (snd out) ++ pending_bytes (snd out)
     = text_written script [Ok (VInt 4); Ok (VInt 3)].
Proof.
  intros p script out.
  assert (Hsend : sends_ok ok_oracle) by (intros i; reflexivity).
  assert (Hout : fst out = Ok [Ok (VInt 4); Ok (VInt 3)]) by reflexivity.
  split; [reflexivity|]. split; [reflexivity|]. split; [exact Hsend|].
  split; [exact Hout|]. split; [reflexivity|].
  exact (@connect_in_text_mode_sends_prefix p script ok_oracle [] _
           eq_refl eq_refl Hsend Hout).
Defined.

(** X9.  Line buffering at work: when a write of a text with a line end
    (a line feed or a carriage return) returns, the peer has received
    everything written so far, this text included, while the block is
    still running. *)
Theorem line_is_sent_at_once (p : Path) (script : list (text_op * bool))
        (s : str) (o : Oracle) (peer : list bytes)
        (vs : list (result value)) (sent : bytes) :
  socket_errno o = None -> connect_errno o = None -> sends_ok o ->
  ends_line s = true ->
  fst (connect_in_text_mode p
         (fun streams =>
            and_wire (run_script (run_text_op streams)
                                 (script ++ [(TWrite s, false)])))
         (fresh o peer)) = Ok (vs, sent) ->
  sent = text_written (script ++ [(TWrite s, false)]) vs.
Proof.
  intros Hs Hc Hsend Hl.
  rewrite (@connect_in_text_mode_run _ p _ o peer Hs Hc).
  change (mkText Input (lit "utf-8") true, mkText Output (lit "utf-8") true)
    with (text_input, text_output).
  intros H. apply fst_leave_inv in H.
  unfold and_wire in H. rewrite bind_run in H.
  destruct (run_script (run_text_op (text_input, text_output))
                       (script ++ [(TWrite s, false)])
                       (entered o peer (str_of_path p)))
    as [[vs'|e] w'] eqn:E; [|discriminate].
  simpl in H. apply Ok_inj in H. injection H as <- <-.
  apply (@text_script_line o (str_of_path p) s Hsend Hl script [] _ _ _
           (entered_text_flow o peer (str_of_path p)) E).
Qed.

Lemma line_is_sent_at_once_witness :
  let p := parse_parts (lit "/tmp/s.sock") in
  let script := [(TWrite (lit "GET "), false)] in
  let s := (lit "status" ++ [10]) in
  let out := connect_in_text_mode p
               (fun streams =>
                  and_wire (run_script (run_text_op streams)
                                       (script ++ [(TWrite s, false)])))
               (fresh ok_oracle []) in
  socket_errno ok_oracle = None /\ connect_errno ok_oracle = None
  /\ sends_ok ok_oracle /\ ends_line s = true
  /\ fst out = Ok ([Ok (VInt 4); Ok (VInt 7)], (lit "GET status" ++ [10]))
  /\ (lit "GET status" ++ [10]) = text_written (script ++ [(TWrite s, false)])
                     [Ok (VInt 4); Ok (VInt 7)].
Proof.
  intros p script s out.
  assert (Hsend : sends_ok ok_oracle) by (intros i; reflexivity).
  assert (Hout : fst out = Ok ([Ok (VInt 4); Ok (VInt 7)], (lit "GET status" ++ [10]))) by reflexivity.
  split; [reflexivity|]. split; [reflexivity|]. split; [exact Hsend|].
  split; [reflexivity|]. split; [exact Hout|].
  exact (@line_is_sent_at_once p script s ok_oracle [] _ _
           eq_refl eq_refl Hsend eq_refl Hout).
Defined.

(** X10.  Text without a line end is not sent, not even when the scope is
    left.  If the block only reads and writes texts that have no line end
    and whose UTF-8 octets stay below the chunk size of the wrapper
    (8192), then no octet reaches the peer, whatever the block returns or
    raises: the wrapper holds the text, and the exits of [connect] close
    the binary streams without flushing the wrapper. *)
Theorem short_text_is_not_sent (p : Path) (script : list (text_op * bool))
        (ending : option exn) (o : Oracle) (peer : list bytes) :
  socket_errno o = None -> connect_errno o = None ->
  forallb (fun step => keeps_back (fst step)) script = true ->
  script_octets script < CHUNK_SIZE ->
  wire (snd (connect_in_text_mode p
               (fun streams => block (run_text_op streams) script ending)
               (fresh o peer))) = [].
Proof.
  intros Hs Hc Hq Hlen.
  rewrite (@connect_in_text_mode_run _ p _ o peer Hs Hc).
  change (mkText Input (lit "utf-8") true, mkText Output (lit "utf-8") true)
    with (text_input, text_output).
  destruct (@quiet_script o (str_of_path p) script [] _
              (entered_out_state o peer (str_of_path p)) Hq Hlen)
    as (z' & H').
  rewrite <- (@snd_block _ _ script ending) in H'.
  destruct (block (run_text_op (text_input, text_output)) script ending
                  (entered o peer (str_of_path p))) as [r w].
  simpl in H'. destruct H' as (Hin & _ & Hx & Hy & _).
  rewrite (@leave_sends_nothing _ o (str_of_path p) r w Hin Hy).
  exact Hx.
Qed.

Lemma short_text_is_not_sent_witness :
  let p := parse_parts (lit "/tmp/s.sock") in
  let script := [(TWrite (lit "status"), false); (TRead 2, false)] in
  let out := connect_in_text_mode p
               (fun streams => block (run_text_op streams) script None)
               (fresh ok_oracle [lit "ok"]) in
  socket_errno ok_oracle = None /\ connect_errno ok_oracle = None
  /\ forallb (fun step => keeps_back (fst step)) script = true
  /\ script_octets script < CHUNK_SIZE
  /\ fst out = Ok [Ok (VInt 6); Ok (VStr (lit "ok"))]
  /\ wire (snd out) = [].
Proof.
  intros p script out.
  assert (Hlen : script_octets script < CHUNK_SIZE) by (vm_compute; reflexivity).
  split; [reflexivity|]. split; [reflexivity|]. split; [reflexivity|].
  split; [exact Hlen|]. split; [reflexivity|].
  exact (@short_text_is_not_sent p script None ok_oracle [lit "ok"]
           eq_refl eq_refl eq_refl Hlen).
Defined.

(* ================================================================== *)
(** * What is read *)

Lemma take_bytes_concat size segs :
  fst (take_bytes size segs) ++ concat (snd (take_bytes size segs))
  = concat segs.
Proof.
  induction segs as [|seg segs IH]; [reflexivity|].
  destruct seg as [|b seg]; [exact IH|].
  cbn [take_bytes].
  destruct (length (b :: seg) <=? size)%nat; cbn [fst snd concat].
  - reflexivity.
  - rewrite app_assoc, firstn_skipn. reflexivity.
Qed.

Lemma bin_op_read_flow o a peer op acc w :
  read_flow o a peer acc w ->
  read_flow o a peer
    (match fst (run_bin_op (Input, Output) op w) with
     | Ok (VBytes b) => acc ++ b
     | _ => acc
     end)
    (snd (run_bin_op (Input, Output) op w)).
Proof.
  intros (Hs & Hw).
  split; [apply keeps_run_bin_op; exact Hs|].
  destruct Hs as (Hor & Hfd & Hsock & Hcalls & Hin & Hout & Hrefs).
  destruct w as [orc ib sc f scl refs ir orw wb pb db dcr dch].
  simpl in *. subst.
  destruct op as [size|data| | |]; simpl.
  - destruct ir; [contradiction| |]; destruct size; run;
      rewrite ?app_nil_r; try assumption.
    destruct (recv_errno o (count is_recv sc)); run; [assumption|].
    pose proof (take_bytes_concat (S size) ib) as Ht.
    destruct (take_bytes (S size) ib) as [got rest]. simpl in Ht.
    rewrite <- app_assoc, Ht. exact Hw.
  - destruct orw; [contradiction| |]; run; try assumption.
    destruct (len data <=? DEFAULT_BUFFER_SIZE - len wb); run;
      try assumption.
    destruct wb as [|b wb]; run;
      repeat (match goal with
              | |- context [send_errno ?o ?i] => destruct (send_errno o i)
              | |- context [DEFAULT_BUFFER_SIZE <? ?x] =>
                  destruct (DEFAULT_BUFFER_SIZE <? x)
              end; run); assumption.
  - destruct orw; [contradiction| |]; run; try assumption.
    destruct wb as [|b wb]; run; try assumption.
    destruct (send_errno o (count is_send sc)); run; assumption.
  - destruct ir; [contradiction| |]; run; try assumption.
  - destruct orw; [contradiction| |]; run; try assumption.
    destruct wb as [|b wb]; run.
    + destruct ir; run; assumption.
    + destruct (send_errno o (count is_send sc)); run;
        destruct ir; run; assumption.
Qed.

Lemma bin_script_read_flow o a peer :
  forall script acc w,
    read_flow o a peer acc w ->
    match fst (run_script (run_bin_op (Input, Output)) script w) with
    | Ok vs =>
        read_flow o a peer (acc ++ received vs)
                  (snd (run_script (run_bin_op (Input, Output)) script w))
    | Raise _ => True
    end.
Proof.
  induction script as [|[op caught] script IH]; intros acc w Hw; simpl.
  - rewrite app_nil_r. exact Hw.
  - pose proof (@bin_op_read_flow o a peer op acc w Hw) as Hop.
    destruct (run_bin_op (Input, Output) op w) as [[v|e] w1]; simpl in Hop.
    + rewrite bind_run. specialize (IH _ _ Hop).
      destruct (run_script (run_bin_op (Input, Output)) script w1)
        as [[vs|e] w2]; simpl in *; [|exact I].
      destruct v; simpl; rewrite <- ?app_assoc in IH; exact IH.
    + destruct caught; simpl; [|exact I].
      rewrite bind_run. specialize (IH _ _ Hop).
      destruct (run_script (run_bin_op (Input, Output)) script w1)
        as [[vs|e'] w2]; simpl in *; [|exact I].
      exact IH.
Qed.

(** The exits receive nothing. *)
Lemma leave_inbox {T} o a (r : result T) (w : Conn) :
  in_scope o a w -> inbox (snd (leave (r, w))) = inbox w.
Proof.
  intros Hs.
  destruct Hs as (Hor & Hfd & Hsock & Hcalls & Hin & Hout & Hrefs).
  destruct w as [orc ib sc f scl refs ir orw wb pb db dcr dch].
  simpl in *. subst.
  unfold leave. rewrite !snd_after. simpl snd.
  destruct orw; [contradiction| |];
    (destruct wb as [|b wb]; run;
     [|destruct (send_errno o (count is_send sc)); run]);
    (destruct ir; [contradiction| |]; run;
     destruct (close_errno o) as [c|]; run;
     try (destruct (c =? ECONNRESET); run); reflexivity).
Qed.

(** X11.  A block that reads with [read1] loses nothing of what the peer
    sent: the octets returned by its [read1] calls are, one after the
    other, a prefix of what the peer sent, nothing skipped, repeated or
    reordered, and the rest is still to be received when the scope is
    left.  This holds whatever fails in between. *)
Theorem connect_reads_in_order (p : Path) (script : list (bin_op * bool))
        (o : Oracle) (peer : list bytes) (vs : list (result value)) :
  socket_errno o = None -> connect_errno o = None ->
  fst (connect p (fun streams => block (run_bin_op streams) script None)
               (fresh o peer)) = Ok vs ->
  received vs
  ++ concat (inbox (snd (connect p
                           (fun streams => block (run_bin_op streams) script None)
                           (fresh o peer))))
  = concat peer.
Proof.
  intros Hs Hc. rewrite (@connect_run _ p _ o peer Hs Hc).
  intros Hvs. apply fst_leave_inv in Hvs. apply fst_block_inv in Hvs.
  assert (H0 : read_flow o (str_of_path p) peer []
                         (entered o peer (str_of_path p))).
  { split; [apply entered_in_scope|reflexivity]. }
  pose proof (@bin_script_read_flow o (str_of_path p) peer script [] _ H0)
    as Hflow.
  rewrite Hvs in Hflow. simpl in Hflow.
  rewrite <- (@snd_block _ _ script None) in Hflow.
  destruct (block (run_bin_op (Input, Output)) script None
                  (entered o peer (str_of_path p))) as [r w].
  simpl in Hflow. destruct Hflow as (Hin & Hacc).
  rewrite (@leave_inbox _ o (str_of_path p) r w Hin). exact Hacc.
Qed.

Lemma connect_reads_in_order_witness :
  let p := parse_parts (lit "/tmp/s.sock") in
  let script := [(BRead1 3, false); (BWrite (lit "x"), false);
                 (BRead1 3, false)] in
  let out := connect p (fun streams => block (run_bin_op streams) script None)
                     (fresh ok_oracle [lit "hello"; lit "world"]) in
  socket_errno ok_oracle = None /\ connect_errno ok_oracle = None
  /\ fst out = Ok [Ok (VBytes (lit "hel")); Ok (VInt 1);
                   Ok (VBytes (lit "lo"))]
  /\ lit "hello" ++ concat (inbox (snd out)) = lit "helloworld".
Proof.
  intros p script out.
  assert (Hout : fst out = Ok [Ok (VBytes (lit "hel")); Ok (VInt 1);
                               Ok (VBytes (lit "lo"))]) by reflexivity.
  split; [reflexivity|]. split; [reflexivity|]. split; [exact Hout|].
  exact (@connect_reads_in_order p script ok_oracle
           [lit "hello"; lit "world"] _ eq_refl eq_refl Hout).
Defined.

Lemma leave_flush_fails {T} o a (r : result T) (w : Conn) (e : Z) :
  in_scope o a w -> close_quiet o ->
  out_raw w = Open -> write_buf w <> [] ->
  send_errno o (count is_send (syscalls w)) = Some e ->
  fst (leave (r, w)) = Raise (OSError e)
  /\ wire (snd (leave (r, w))) = wire w.
Proof.
  intros (Hor & Hfd & Hsock & Hcalls & Hin & Hout & Hrefs) Hq Ho Hb He.
  destruct w as [orc ib sc f scl refs ir orw wb pb db dcr dch].
  unfold wire. simpl in *. subst.
  destruct wb as [|b wb]; [contradiction|].
  unfold leave, after. run. rewrite He. run.
  destruct ir; [contradiction| |]; run;
    destruct Hq as [-> | ->]; simpl; (split; [reflexivity|wire_tac]).
Qed.

(** X12.  Data that the block wrote and did not flush is sent when the
    scope is left, by the exit of the output channel.  If that send fails
    (and closing the socket reports nothing), none of the data the writer
    still held reaches the peer, and the [with] statement raises the
    OSError of the send in the place of whatever the block returned or
    raised.  This holds for every block: what matters is that, when it
    ends, the output stream is open and its writer holds data. *)
Theorem connect_exit_flush_failure (p : Path) (script : list (bin_op * bool))
        (ending : option exn) (o : Oracle) (peer : list bytes) (e : Z) :
  socket_errno o = None -> connect_errno o = None -> close_quiet o ->
  out_raw (snd (block (run_bin_op (Input, Output)) script ending
                      (entered o peer (str_of_path p)))) = Open ->
  write_buf (snd (block (run_bin_op (Input, Output)) script ending
                        (entered o peer (str_of_path p)))) <> [] ->
  send_errno o
    (count is_send
       (syscalls (snd (block (run_bin_op (Input, Output)) script ending
                             (entered o peer (str_of_path p))))))
  = Some e ->
  fst (connect p (fun streams => block (run_bin_op streams) script ending)
               (fresh o peer)) = Raise (OSError e)
  /\ wire (snd (connect p
                  (fun streams => block (run_bin_op streams) script ending)
                  (fresh o peer)))
     = wire (snd (block (run_bin_op (Input, Output)) script ending
                        (entered o peer (str_of_path p)))).
Proof.
  intros Hs Hc Hq. rewrite (@connect_run _ p _ o peer Hs Hc).
  pose proof (@keeps_block bin_op (in_scope o (str_of_path p))
                (run_bin_op (Input, Output)) script ending
                (@keeps_run_bin_op o (str_of_path p) (Input, Output))
                (entered o peer (str_of_path p))
                (entered_in_scope o peer (str_of_path p))) as Hin.
  destruct (block (run_bin_op (Input, Output)) script ending
                  (entered o peer (str_of_path p))) as [r w].
  simpl in Hin. simpl snd. intros Ho Hb He.
  apply (@leave_flush_fails _ o (str_of_path p)); assumption.
Qed.

Lemma connect_exit_flush_failure_witness :
  let p := parse_parts (lit "/tmp/s.sock") in
  let o := mkOracle None None (fun _ => Some 32) (fun _ => None) None in
  let script := [(BRead1 4, false); (BWrite (lit "ping"), false)] in
  let out := connect p
               (fun streams =>
                  block (run_bin_op streams) script (Some (UserError 1)))
               (fresh o [lit "pong"]) in
  socket_errno o = None /\ connect_errno o = None /\ close_quiet o
  /\ fst out = Raise (OSError 32) /\ wire (snd out) = [].
Proof.
  intros p o script out.
  assert (Hq : close_quiet o) by (left; reflexivity).
  assert (Hb : write_buf (snd (block (run_bin_op (Input, Output)) script
                                     (Some (UserError 1))
                                     (entered o [lit "pong"] (str_of_path p))))
               <> []) by (vm_compute; discriminate).
  destruct (@connect_exit_flush_failure p script (Some (UserError 1)) o
              [lit "pong"] 32 eq_refl eq_refl Hq eq_refl Hb eq_refl)
    as [H1 H2].
  split; [reflexivity|]. split; [reflexivity|]. split; [exact Hq|].
  split; [exact H1|]. exact (eq_trans H2 eq_refl).
Defined.

(** X13.  Whatever is missing or unreadable in the file system,
    [get_socket_path] raises no error on account of it: the path is
    resolved with [strict=False].  Its only exceptions are RuntimeError (a
    loop of symbolic links), RecursionError (links nested deeper than the
    interpreter allows), UnicodeEncodeError (a name that the file-system
    encoding or UTF-8 cannot encode), ValueError (a name with a NUL) and
    the OSError of [os.getcwd], when the identifier is relative and the
    working directory is gone. *)
Theorem get_socket_path_errors (root log_directory : Path) (h : Host)
        (e : exn) :
  fst (get_socket_path root log_directory h) = Raise e ->
  e = RuntimeError \/ e = RecursionError \/ e = UnicodeEncodeError
  \/ e = ValueError
  \/ exists n, e = OSError n /\ is_absolute log_directory = false
               /\ host_cwd h = NoCwd n.
Proof.
  intros H.
  destruct (@get_socket_path_raises root log_directory h e H)
    as [[E|[E|[E|E]]]|E];
    [tauto|tauto|tauto|tauto|do 4 right; exact E].
Qed.

Lemma get_socket_path_errors_witness :
  let h := mkHost (NoCwd ENOENT) (fun _ => Failed ENOENT) 100 in
  fst (get_socket_path (parse_parts (lit "/tmp"))
                       (parse_parts (lit "logs/pyre")) h)
  = Raise (OSError ENOENT)
  /\ (OSError ENOENT = RuntimeError \/ OSError ENOENT = RecursionError
      \/ OSError ENOENT = UnicodeEncodeError \/ OSError ENOENT = ValueError
      \/ exists n, OSError ENOENT = OSError n
                   /\ is_absolute (parse_parts (lit "logs/pyre")) = false
                   /\ host_cwd h = NoCwd n).
Proof.
  intros h.
  assert (E : fst (get_socket_path (parse_parts (lit "/tmp"))
                                   (parse_parts (lit "logs/pyre")) h)
              = Raise (OSError ENOENT)) by (vm_compute; reflexivity).
  split; [exact E|].
  exact (@get_socket_path_errors (parse_parts (lit "/tmp"))
           (parse_parts (lit "logs/pyre")) h (OSError ENOENT) E).
Defined.

(* ================================================================== *)
(** * The claims about the scope of [connect] *)








(* ================================================================== *)
(** * The claims about the text wrappers *)





